(** * go-btc-peers: the peer crawler's dispatcher, workers and dashboard state

    A shallow embedding of
    - [pkg/client/listner.go]  (the per-connection message loop [connListen]),
    - the client workers file  ([wNewAddrListner], [wNodesFeeder],
      [wNodeResultsHandler], [wNodesConnector], [wGuiUpdater]),
    - the gui file             ([GUI.Update], [updateDataList], [queue]),
    followed by the properties established about them. *)

From stdpp Require Import base tactics option list gmap strings pretty relations.
From Stdlib Require Import ZArith Lia.

Local Open Scope Z_scope.
#[local] Set Warnings "-clear-no-such-hyp".

(** ** Go integers *)

(** A Go integer type: its width and whether it is signed. *)
Record intType := { it_signed : bool; it_bits : Z }.

Definition t_int : intType := {| it_signed := true; it_bits := 64 |}.
Definition t_int32 : intType := {| it_signed := true; it_bits := 32 |}.
Definition t_uint64 : intType := {| it_signed := false; it_bits := 64 |}.
Definition t_uint16 : intType := {| it_signed := false; it_bits := 16 |}.

Definition minOf (t : intType) : Z :=
  if it_signed t then - 2 ^ (it_bits t - 1) else 0.
Definition maxOf (t : intType) : Z :=
  if it_signed t then 2 ^ (it_bits t - 1) - 1 else 2 ^ it_bits t - 1.

(** Arithmetic of type [t] wraps around silently. *)
Definition wrap (t : intType) (z : Z) : Z :=
  minOf t + (z - minOf t) mod 2 ^ it_bits t.

Definition inRange (t : intType) (z : Z) : Prop := minOf t <= z <= maxOf t.

(** ** The wire codec, as far as the dispatcher looks at it *)

Module wire.

(** What [wire.ReadMessageN] can fail with: [io.EOF], the sentinel
    [wire.ErrUnknownMessage], or any other error (held by its text). *)
Inductive error :=
| EOF
| ErrUnknownMessage
| ErrOther (text : string).

(** [IP] holds the rendering [a.IP.String()] of the address. *)
Record NetAddress := { IP : string; Port : Z }.

(** [Addr] holds the rendering [a.Addr.String()] of the address. *)
Record NetAddressV2 := { Addr : string; PortV2 : Z }.

(** The decoded messages, one constructor per arm of the type switch, and
    [MsgOther] for every message type the switch has no arm for. *)
Inductive Message :=
| MsgVersion (ProtocolVersion : Z)
| MsgVerAck
| MsgPing (Nonce : Z)
| MsgPong (Nonce : Z)
| MsgAddr (AddrList : list NetAddress)
| MsgAddrV2 (AddrList : list NetAddressV2)
| MsgInv (InvList : list string)
| MsgFeeFilter (MinFee : Z)
| MsgGetHeaders (BlockLocatorHashes : list string)
| MsgOther (command : string).

Definition Command (m : Message) : string :=
  match m with
  | MsgVersion _ => "version"
  | MsgVerAck => "verack"
  | MsgPing _ => "ping"
  | MsgPong _ => "pong"
  | MsgAddr _ => "addr"
  | MsgAddrV2 _ => "addrv2"
  | MsgInv _ => "inv"
  | MsgFeeFilter _ => "feefilter"
  | MsgGetHeaders _ => "getheaders"
  | MsgOther c => c
  end.

(** The four results [cnt, msg, rawPayload, err] of one [ReadMessageN]:
    a message when [err == nil], an error otherwise. *)
Inductive ReadResult :=
| ReadOk (cnt : Z) (msg : Message) (rawPayload : list Z)
| ReadErr (cnt : Z) (err : error).

End wire.

(** ** Logging *)

Inductive Level := LvDebug | LvInfo | LvWarn | LvError.

(** One call of the logger: the level, the format string (without its final
    newline) and the arguments after the connection prefix, rendered.  A
    message printed with [%+v] is held by its command name. *)
Record LogEntry := { level : Level; format : string; args : list string }.

(** ** pkg/client/listner.go *)

Module listner.
Import wire.

(** Modelled from the spec: the classification states of a node ([Node] is
    declared in a file that is not part of the sources at hand). *)
Inductive State := Discovered | Queued | Connecting | Good | Dead.

(** The fields of [Node] that [connListen] reads or writes ([Conn] is
    [None] for Go's [nil]), and the [state] of the spec's data model, which
    no function below reads. *)
Record Node := {
  endpoint : string;
  state : State;
  Conn : option Z;
  PingNonce : Z;
  PingCount : Z
}.

Definition Endpoint (n : Node) : string := endpoint n.

(** Everything [connListen] touches: its node, the package logger, the
    standard output and the package-level channel [newNodesCh] (the batches
    sent on it so far, oldest first). *)
Record World := {
  node : Node;
  logs : list LogEntry;
  stdout : list string;
  newNodesCh : list (list string)
}.

Definition setNode (w : World) (n : Node) : World :=
  {| node := n; logs := logs w; stdout := stdout w; newNodesCh := newNodesCh w |}.

Definition logf (l : Level) (f : string) (a : list string) (w : World) : World :=
  {| node := node w; logs := logs w ++ [ {| level := l; format := f; args := a |} ];
     stdout := stdout w; newNodesCh := newNodesCh w |}.

Definition println (w : World) : World :=
  {| node := node w; logs := logs w; stdout := stdout w ++ [""];
     newNodesCh := newNodesCh w |}.

(** [newNodesCh <- batch] *)
Definition send (batch : list string) (w : World) : World :=
  {| node := node w; logs := logs w; stdout := stdout w;
     newNodesCh := newNodesCh w ++ [batch] |}.

(** [err == io.EOF] on the result of a read. *)
Definition isEOF (r : ReadResult) : bool :=
  match r with
  | ReadErr _ EOF => true
  | _ => false
  end.

(** [fmt.Sprintf("[%s]:%d", host, port)] *)
Definition sprintfAddr (host : string) (port : Z) : string :=
  "[" +:+ host +:+ "]:" +:+ pretty port.

Section WithNodeTypes.
(** The integer type of the field [PingCount]; [Node] is declared in a
    file that is not part of the sources at hand. *)
Variable PingCountT : intType.

(** The body of [case *wire.MsgPong]. *)
Definition onPong (nonce : Z) (w : World) : World :=
  let w := logf LvInfo "%s MsgPong received" [] w in
  let n := node w in
  if nonce =? PingNonce n then
    let w := logf LvDebug "%s pong OK" [] w in
    setNode w {| endpoint := endpoint n; state := state n; Conn := Conn n;
                 PingNonce := 0;
                 PingCount := wrap PingCountT (PingCount n + 1) |}
  else
    logf LvWarn "%s pong nonce mismatch, expected %v, got %v"
         [pretty (PingNonce n); pretty nonce] w.

(** The type switch on the decoded message. *)
Definition dispatch (m : Message) (w : World) : World :=
  match m with
  | MsgVersion pver =>
      let w := logf LvInfo "%s MsgVersion received" [] w in
      let w := logf LvDebug "%s version: %v" [pretty pver] w in
      logf LvDebug "%s msg: %+v" [Command m] w
  | MsgVerAck =>
      let w := logf LvInfo "%s MsgVerAck received" [] w in
      logf LvDebug "%s msg: %+v" [Command m] w
  | MsgPing nonce =>
      let w := logf LvInfo "%s MsgPing received" [] w in
      let w := logf LvDebug "%s nonce: %v" [pretty nonce] w in
      logf LvDebug "%s msg: %+v" [Command m] w
  | MsgPong nonce => onPong nonce w
  | MsgAddr l =>
      let w := logf LvInfo "%s MsgAddr received" [] w in
      let w := logf LvDebug "%s got %d addresses" [pretty (length l)] w in
      let batch := map (fun a => sprintfAddr (IP a) (Port a)) l in
      send batch w
  | MsgAddrV2 l =>
      let w := logf LvInfo "%s MsgAddrV2 received" [] w in
      let w := logf LvDebug "%s got %d addresses" [pretty (length l)] w in
      let batch := map (fun a => sprintfAddr (Addr a) (PortV2 a)) l in
      send batch w
  | MsgInv l =>
      let w := logf LvInfo "%s MsgInv received" [] w in
      logf LvDebug "%s data: %d" [pretty (length l)] w
  | MsgFeeFilter fee =>
      let w := logf LvInfo "%s MsgFeeFilter received" [] w in
      logf LvDebug "%s fee: %v" [pretty fee] w
  | MsgGetHeaders l =>
      let w := logf LvInfo "%s MsgGetHeaders received" [] w in
      logf LvDebug "%s headers: %d" [pretty (length l)] w
  | MsgOther _ =>
      let w := logf LvInfo "%s unknown message received" [] w in
      logf LvDebug "%s msg: %+v" [Command m] w
  end.

(** How one pass through the body of the [for] loop ends. *)
Inductive Ctl := Continue | Return.

(** The loop body from the call of [ReadMessageN] on, given what the call
    returned.  The message and payload that come with an error are left out
    of the log arguments. *)
Definition onRead (r : ReadResult) (w : World) : Ctl * World :=
  match r with
  | ReadErr cnt EOF => (Return, logf LvWarn "%s EOF, exit" [] w)
  | ReadErr cnt ErrUnknownMessage =>
      (Continue, logf LvWarn "%s ERR: unknown message, ignoring" [] w)
  | ReadErr cnt (ErrOther e) =>
      let w := logf LvWarn "%s ERR: Cant read buffer, error: %v" [e] w in
      let w := logf LvWarn "%s ERR: bytes read: %v" [pretty cnt] w in
      let w := logf LvWarn "%s ERR: msg: %v" [] w in
      let w := logf LvWarn "%s ERR: rawPayload: %v" [] w in
      (Continue, w)
  | ReadOk cnt m raw =>
      let w := logf LvDebug "%s Got message: %d bytes, cmd: %s rawPayload len: %d"
                    [pretty cnt; Command m; pretty (length raw)] w in
      (Continue, dispatch m w)
  end.

(** The deferred function: [n.Conn = nil], then the "closed" warning. *)
Definition deferred (w : World) : World :=
  let n := node w in
  let w := setNode w {| endpoint := endpoint n; state := state n; Conn := None;
                        PingNonce := PingNonce n; PingCount := PingCount n |} in
  logf LvWarn "%s closed" [] w.

(** How a run of [connListen] against a finite script of read results
    stands when the script is used up: it has returned (after [reads]
    calls of [ReadMessageN]), or it sits in the next call. *)
Inductive Outcome :=
| Returned (reads : nat) (w : World)
| Reading (reads : nat) (w : World).

(** [connListen], run against the results of the successive reads. *)
Fixpoint connListenFrom (done : nat) (script : list ReadResult) (w : World)
  : Outcome :=
  match Conn (node w) with
  | None => Returned done (deferred w)
  | Some _ =>
      let w := println w in
      match script with
      | [] => Reading done w
      | r :: script' =>
          match onRead r w with
          | (Return, w') => Returned (S done) (deferred w')
          | (Continue, w') => connListenFrom (S done) script' w'
          end
      end
  end.

Definition connListen (script : list ReadResult) (w : World) : Outcome :=
  connListenFrom 0 script w.

End WithNodeTypes.

(** The world an outcome carries. *)
Definition worldOf (o : Outcome) : World :=
  match o with
  | Returned _ w => w
  | Reading _ w => w
  end.

(** The batch an address message announces. *)
Definition batchOf (m : Message) : option (list string) :=
  match m with
  | MsgAddr l => Some (map (fun a => sprintfAddr (IP a) (Port a)) l)
  | MsgAddrV2 l => Some (map (fun a => sprintfAddr (Addr a) (PortV2 a)) l)
  | _ => None
  end.

(** The batches announced by the address messages of a script of reads, up
    to its first end-of-stream. *)
Fixpoint announced (script : list ReadResult) : list (list string) :=
  match script with
  | [] => []
  | ReadErr _ EOF :: _ => []
  | ReadErr _ _ :: script' => announced script'
  | ReadOk _ m _ :: script' =>
      match batchOf m with
      | Some b => b :: announced script'
      | None => announced script'
      end
  end.

(** The nonces of the pong messages of a script of reads, up to its first
    end-of-stream. *)
Fixpoint pongs (script : list ReadResult) : list Z :=
  match script with
  | [] => []
  | ReadErr _ EOF :: _ => []
  | ReadOk _ (MsgPong nonce) _ :: script' => nonce :: pongs script'
  | _ :: script' => pongs script'
  end.

(** What a pong with nonce [nonce] makes of a node: the two assignments of
    the matching branch, or nothing. *)
Definition ponged (T : intType) (n : Node) (nonce : Z) : Node :=
  if nonce =? PingNonce n then
    {| endpoint := endpoint n; state := state n; Conn := Conn n;
       PingNonce := 0; PingCount := wrap T (PingCount n + 1) |}
  else n.

(** The deferred "closed" warning. *)
Definition closedEntry : LogEntry :=
  {| level := LvWarn; format := "%s closed"; args := [] |}.

End listner.

(** ** The gui file: dashboard state *)

Module gui.

Definition lenLogs : Z := 20.
Definition lenConnChart : Z := 14.
Definition lenNodesChart : Z := 32.

Record IncomingData := {
  Connections : Z;
  NodesTotal : Z;
  NodesGood : Z;
  NodesDead : Z;
  NodesQueued : Z;
  MsgIn : Z;
  MsgOut : Z
}.

(** The only [float64] values of this package are conversions
    [float64(x)] of an [int], so each is an integer: a [float64] is held by
    the integer it is equal to. *)
Definition float64 : Type := Z.

(** Nearest multiple of [2^e] to [z >= 0], ties to the even quotient. *)
Definition roundHalfEven (z e : Z) : Z :=
  let q := z / 2 ^ e in
  let r := z mod 2 ^ e in
  let half := 2 ^ (e - 1) in
  if r <? half then q * 2 ^ e
  else if half <? r then (q + 1) * 2 ^ e
  else if Z.even q then q * 2 ^ e else (q + 1) * 2 ^ e.

(** The conversion [float64(z)] of an integer: exact below [2^53], rounded
    to 53 significant bits above. *)
Definition float64OfNonneg (z : Z) : float64 :=
  if z <? 2 ^ 53 then z else roundHalfEven z (Z.log2 z - 52).

Definition float64OfInt (z : Z) : float64 :=
  if z <? 0 then - float64OfNonneg (- z) else float64OfNonneg z.

(** The type switch that opens [updateDataList]: a [float64] equal to [0]
    and an empty [string] make it return at once; a value of any other type
    never does. *)
Class Skipped (T : Type) := skipped : T -> bool.
#[export] Instance skipped_float64 : Skipped float64 := fun v => v =? 0.
#[export] Instance skipped_string : Skipped string :=
  fun v => bool_decide (v = "").

(** The loop that copies a [container/list] (walked from [Back] with
    [Prev]; [back] is the list in that order) to the slice [mirror];
    [i] is the loop counter. *)
Fixpoint copyBack {T : Type} (back : list T) (i : Z) (mirror : list T) (limit : Z)
  : list T :=
  match back with
  | [] => mirror
  | e :: back' =>
      if limit <=? i then mirror
      else
        let idx := limit - 1 - i in
        if Z.of_nat (length mirror) <=? idx then mirror
        else copyBack back' (i + 1) (<[Z.to_nat idx := e]> mirror) limit
  end.

(** [l.PushBack(v)], then [l.Remove(l.Front())] when [l.Len() > limit]. *)
Definition pushBounded {T : Type} (l : list T) (v : T) (limit : Z) : list T :=
  let l := l ++ [v] in
  if limit <? Z.of_nat (length l) then tail l else l.

(** [updateDataList(l, val, mirror, limit)]: the linked list and the slice
    after the call (both are updated in place). *)
Definition updateDataList {T : Type} `{Skipped T}
    (l : list T) (val : T) (mirror : list T) (limit : Z) : list T * list T :=
  if skipped val then (l, mirror)
  else
    let l := pushBounded l val limit in
    (l, copyBack (rev l) 0 mirror limit).

(** [queueData]: the boxed value is [nil] or a [float64] (the one queue of
    the dashboard is only filled by [AddFloat]). *)
Definition queueData : Type := option float64.

Record queue := {
  qlist : list queueData;
  size : Z;
  data : list queueData;
  dataFlatFloat : option (list float64)
}.

Definition NewQueue (sz : Z) : queue :=
  {| qlist := []; size := sz; data := replicate (Z.to_nat sz) None;
     dataFlatFloat := None |}.

(** [q.add(d)] *)
Definition add (d : queueData) (q : queue) : queue :=
  let l := pushBounded (qlist q) d (size q) in
  {| qlist := l; size := size q;
     data := copyBack (rev l) 0 (data q) (size q);
     dataFlatFloat := dataFlatFloat q |}.

(** The copy loop of [AddFloat]: it returns at the first [nil] box. *)
Fixpoint flatten (boxes : list queueData) (i : nat) (flat : list float64)
  : list float64 :=
  match boxes with
  | [] => flat
  | None :: _ => flat
  | Some v :: boxes' => flatten boxes' (S i) (<[i := v]> flat)
  end.

(** [q.AddFloat(val)] *)
Definition AddFloat (val : float64) (q : queue) : queue :=
  let q := add (Some val) q in
  let flat := match dataFlatFloat q with
              | None => replicate (Z.to_nat (size q)) 0
              | Some f => f
              end in
  {| qlist := qlist q; size := size q; data := data q;
     dataFlatFloat := Some (flatten (data q) 0 flat) |}.

Record GUI := {
  maxConnections : Z;
  infoNodesGood : Z;
  infoNodesDead : Z;
  infoNodesQueued : Z;
  infoConnections : Z;
  infoMsgIn : Z;
  infoMsgOut : Z;
  dataConnectionsList : list float64;
  dataConnections : list float64;
  dataNodesQueuedList : list float64;
  dataNodesGoodList : list float64;
  dataNodesDeadList : list float64;
  dataNodesTotal : queue;
  dataNodesQueued : list float64;
  dataNodesGood : list float64;
  dataNodesDead : list float64;
  logsList : list string;
  logs : list string
}.

(** [New()], for the connection limit of the configuration. *)
Definition New (connectionsLimit : Z) : GUI :=
  {| maxConnections := connectionsLimit;
     infoNodesGood := 0; infoNodesDead := 0; infoNodesQueued := 0;
     infoConnections := 0; infoMsgIn := 0; infoMsgOut := 0;
     dataConnectionsList := [];
     dataConnections := replicate (Z.to_nat lenConnChart) 0;
     dataNodesQueuedList := []; dataNodesGoodList := []; dataNodesDeadList := [];
     dataNodesTotal := NewQueue lenNodesChart;
     dataNodesQueued := replicate (Z.to_nat lenNodesChart) 0;
     dataNodesGood := replicate (Z.to_nat lenNodesChart) 0;
     dataNodesDead := replicate (Z.to_nat lenNodesChart) 0;
     logsList := []; logs := replicate (Z.to_nat lenLogs) "" |}.

(** The seven guarded blocks of [Update], in the order of the source. *)
Definition updConnections (d : IncomingData) (g : GUI) : GUI :=
  if 0 <? Connections d then
    let '(l, m) := updateDataList (dataConnectionsList g)
                     (float64OfInt (Connections d)) (dataConnections g) lenConnChart in
    {| maxConnections := maxConnections g;
       infoNodesGood := infoNodesGood g; infoNodesDead := infoNodesDead g;
       infoNodesQueued := infoNodesQueued g;
       infoConnections := Connections d;
       infoMsgIn := infoMsgIn g; infoMsgOut := infoMsgOut g;
       dataConnectionsList := l; dataConnections := m;
       dataNodesQueuedList := dataNodesQueuedList g;
       dataNodesGoodList := dataNodesGoodList g;
       dataNodesDeadList := dataNodesDeadList g;
       dataNodesTotal := dataNodesTotal g;
       dataNodesQueued := dataNodesQueued g; dataNodesGood := dataNodesGood g;
       dataNodesDead := dataNodesDead g;
       logsList := logsList g; logs := logs g |}
  else g.

Definition updNodesTotal (d : IncomingData) (g : GUI) : GUI :=
  if 0 <? NodesTotal d then
    {| maxConnections := maxConnections g;
       infoNodesGood := infoNodesGood g; infoNodesDead := infoNodesDead g;
       infoNodesQueued := infoNodesQueued g;
       infoConnections := infoConnections g;
       infoMsgIn := infoMsgIn g; infoMsgOut := infoMsgOut g;
       dataConnectionsList := dataConnectionsList g;
       dataConnections := dataConnections g;
       dataNodesQueuedList := dataNodesQueuedList g;
       dataNodesGoodList := dataNodesGoodList g;
       dataNodesDeadList := dataNodesDeadList g;
       dataNodesTotal := AddFloat (float64OfInt (NodesTotal d)) (dataNodesTotal g);
       dataNodesQueued := dataNodesQueued g; dataNodesGood := dataNodesGood g;
       dataNodesDead := dataNodesDead g;
       logsList := logsList g; logs := logs g |}
  else g.

Definition updNodesQueued (d : IncomingData) (g : GUI) : GUI :=
  if 0 <? NodesQueued d then
    let '(l, m) := updateDataList (dataNodesQueuedList g)
                     (float64OfInt (NodesQueued d)) (dataNodesQueued g) lenNodesChart in
    {| maxConnections := maxConnections g;
       infoNodesGood := infoNodesGood g; infoNodesDead := infoNodesDead g;
       infoNodesQueued := NodesQueued d;
       infoConnections := infoConnections g;
       infoMsgIn := infoMsgIn g; infoMsgOut := infoMsgOut g;
       dataConnectionsList := dataConnectionsList g;
       dataConnections := dataConnections g;
       dataNodesQueuedList := l;
       dataNodesGoodList := dataNodesGoodList g;
       dataNodesDeadList := dataNodesDeadList g;
       dataNodesTotal := dataNodesTotal g;
       dataNodesQueued := m; dataNodesGood := dataNodesGood g;
       dataNodesDead := dataNodesDead g;
       logsList := logsList g; logs := logs g |}
  else g.

Definition updNodesGood (d : IncomingData) (g : GUI) : GUI :=
  if 0 <? NodesGood d then
    let '(l, m) := updateDataList (dataNodesGoodList g)
                     (float64OfInt (NodesGood d)) (dataNodesGood g) lenNodesChart in
    {| maxConnections := maxConnections g;
       infoNodesGood := NodesGood d; infoNodesDead := infoNodesDead g;
       infoNodesQueued := infoNodesQueued g;
       infoConnections := infoConnections g;
       infoMsgIn := infoMsgIn g; infoMsgOut := infoMsgOut g;
       dataConnectionsList := dataConnectionsList g;
       dataConnections := dataConnections g;
       dataNodesQueuedList := dataNodesQueuedList g;
       dataNodesGoodList := l;
       dataNodesDeadList := dataNodesDeadList g;
       dataNodesTotal := dataNodesTotal g;
       dataNodesQueued := dataNodesQueued g; dataNodesGood := m;
       dataNodesDead := dataNodesDead g;
       logsList := logsList g; logs := logs g |}
  else g.

Definition updNodesDead (d : IncomingData) (g : GUI) : GUI :=
  if 0 <? NodesDead d then
    let '(l, m) := updateDataList (dataNodesDeadList g)
                     (float64OfInt (NodesDead d)) (dataNodesDead g) lenNodesChart in
    {| maxConnections := maxConnections g;
       infoNodesGood := infoNodesGood g; infoNodesDead := NodesDead d;
       infoNodesQueued := infoNodesQueued g;
       infoConnections := infoConnections g;
       infoMsgIn := infoMsgIn g; infoMsgOut := infoMsgOut g;
       dataConnectionsList := dataConnectionsList g;
       dataConnections := dataConnections g;
       dataNodesQueuedList := dataNodesQueuedList g;
       dataNodesGoodList := dataNodesGoodList g;
       dataNodesDeadList := l;
       dataNodesTotal := dataNodesTotal g;
       dataNodesQueued := dataNodesQueued g; dataNodesGood := dataNodesGood g;
       dataNodesDead := m;
       logsList := logsList g; logs := logs g |}
  else g.

Definition updMsgIn (d : IncomingData) (g : GUI) : GUI :=
  if 0 <? MsgIn d then
    {| maxConnections := maxConnections g;
       infoNodesGood := infoNodesGood g; infoNodesDead := infoNodesDead g;
       infoNodesQueued := infoNodesQueued g;
       infoConnections := infoConnections g;
       infoMsgIn := MsgIn d; infoMsgOut := infoMsgOut g;
       dataConnectionsList := dataConnectionsList g;
       dataConnections := dataConnections g;
       dataNodesQueuedList := dataNodesQueuedList g;
       dataNodesGoodList := dataNodesGoodList g;
       dataNodesDeadList := dataNodesDeadList g;
       dataNodesTotal := dataNodesTotal g;
       dataNodesQueued := dataNodesQueued g; dataNodesGood := dataNodesGood g;
       dataNodesDead := dataNodesDead g;
       logsList := logsList g; logs := logs g |}
  else g.

Definition updMsgOut (d : IncomingData) (g : GUI) : GUI :=
  if 0 <? MsgOut d then
    {| maxConnections := maxConnections g;
       infoNodesGood := infoNodesGood g; infoNodesDead := infoNodesDead g;
       infoNodesQueued := infoNodesQueued g;
       infoConnections := infoConnections g;
       infoMsgIn := infoMsgIn g; infoMsgOut := MsgOut d;
       dataConnectionsList := dataConnectionsList g;
       dataConnections := dataConnections g;
       dataNodesQueuedList := dataNodesQueuedList g;
       dataNodesGoodList := dataNodesGoodList g;
       dataNodesDeadList := dataNodesDeadList g;
       dataNodesTotal := dataNodesTotal g;
       dataNodesQueued := dataNodesQueued g; dataNodesGood := dataNodesGood g;
       dataNodesDead := dataNodesDead g;
       logsList := logsList g; logs := logs g |}
  else g.

(** [g.Update(d)], between [mu.Lock()] and [mu.Unlock()]. *)
Definition Update (d : IncomingData) (g : GUI) : GUI :=
  let g := updConnections d g in
  let g := updNodesTotal d g in
  let g := updNodesQueued d g in
  let g := updNodesGood d g in
  let g := updNodesDead d g in
  let g := updMsgIn d g in
  updMsgOut d g.


(** *** What is stored for each field of [IncomingData] *)

(** The info field, the linked list and the chart slice of a counter. *)
Definition series : Type := Z * list float64 * list float64.

Definition connectionsSeries (g : GUI) : series :=
  (infoConnections g, dataConnectionsList g, dataConnections g).
Definition nodesQueuedSeries (g : GUI) : series :=
  (infoNodesQueued g, dataNodesQueuedList g, dataNodesQueued g).
Definition nodesGoodSeries (g : GUI) : series :=
  (infoNodesGood g, dataNodesGoodList g, dataNodesGood g).
Definition nodesDeadSeries (g : GUI) : series :=
  (infoNodesDead g, dataNodesDeadList g, dataNodesDead g).

(** A guarded block of [Update] that sets an info field and calls
    [updateDataList], on the three things it stores. *)
Definition stepSeries (limit : Z) (x : Z) (v : series) : series :=
  if 0 <? x then
    let '(l, m) := updateDataList (snd (fst v)) (float64OfInt x) (snd v) limit in
    (x, l, m)
  else v.

(** The guarded block for [NodesTotal], on the queue. *)
Definition stepTotal (x : Z) (q : queue) : queue :=
  if 0 <? x then AddFloat (float64OfInt x) q else q.

(** The guarded blocks for [MsgIn] and [MsgOut], on the info field. *)
Definition stepInfo (x : Z) (i : Z) : Z := if 0 <? x then x else i.

(** Everything [Update] can write, field by field of [IncomingData]. *)
Definition stored (g : GUI)
  : series * queue * series * series * series * Z * Z :=
  (connectionsSeries g, dataNodesTotal g, nodesQueuedSeries g,
   nodesGoodSeries g, nodesDeadSeries g, infoMsgIn g, infoMsgOut g).

(** *** The rest of the dashboard state *)

(** [g.Log(log)] *)
Definition Log (line : string) (g : GUI) : GUI :=
  let '(l, m) := updateDataList (logsList g) line (logs g) lenLogs in
  {| maxConnections := maxConnections g;
     infoNodesGood := infoNodesGood g; infoNodesDead := infoNodesDead g;
     infoNodesQueued := infoNodesQueued g;
     infoConnections := infoConnections g;
     infoMsgIn := infoMsgIn g; infoMsgOut := infoMsgOut g;
     dataConnectionsList := dataConnectionsList g;
     dataConnections := dataConnections g;
     dataNodesQueuedList := dataNodesQueuedList g;
     dataNodesGoodList := dataNodesGoodList g;
     dataNodesDeadList := dataNodesDeadList g;
     dataNodesTotal := dataNodesTotal g;
     dataNodesQueued := dataNodesQueued g; dataNodesGood := dataNodesGood g;
     dataNodesDead := dataNodesDead g;
     logsList := l; logs := m |}.

(** [q.getData()] and [q.getFlatFloat()] ([None] for a [nil] slice). *)
Definition getData (q : queue) : list queueData := data q.
Definition getFlatFloat (q : queue) : option (list float64) := dataFlatFloat q.

(** The slice [totalDataF] that [Start] builds from [getData] for the
    total chart on every redraw: a [nil] box is drawn as [0]. *)
Definition totalDataF (q : queue) : list float64 :=
  map (fun v => match v with Some f => f | None => 0 end) (getData q).

Section Conversion.
(** What the platform yields for [int(f)] when [f] is beyond the range of
    [int]; the language leaves it to the implementation. *)
Variable beyondInt : float64 -> Z.

(** [int(f)] for the integer-valued [f] of this package. *)
Definition intOfFloat64 (f : float64) : Z :=
  if (minOf t_int <=? f) && (f <=? maxOf t_int) then f else beyondInt f.

(** [q.GetLastNum()] *)
Definition GetLastNum (q : queue) : Z :=
  match dataFlatFloat q with
  | None => 0
  | Some flat =>
      match last flat with
      | None => 0
      | Some f => intOfFloat64 f
      end
  end.
End Conversion.

(** [updateTitle]'s and [updateTitleChart]'s new title. *)
Definition updateTitle (data : Z) (title : string) : string :=
  if 0 <? data then title +:+ " (" +:+ pretty data +:+ ")" else title.
Definition updateTitleChart (data : Z) (title : string) : string :=
  if 0 <? data then title +:+ ": " +:+ pretty data else title.

(** A call of one of the two methods that write the dashboard state. *)
Inductive call :=
| CallUpdate (d : IncomingData)
| CallLog (line : string).

Definition perform (g : GUI) (c : call) : GUI :=
  match c with
  | CallUpdate d => Update d g
  | CallLog line => Log line g
  end.

(** The arguments of the [Update] calls and of the [Log] calls among
    [calls], in order. *)
Definition updatesOf (calls : list call) : list IncomingData :=
  omap (fun c => match c with CallUpdate d => Some d | _ => None end) calls.
Definition linesOf (calls : list call) : list string :=
  omap (fun c => match c with CallLog l => Some l | _ => None end) calls.

(** The last [n] elements of a list (all of it when it is shorter). *)
Definition lastN {T : Type} (n : nat) (l : list T) : list T :=
  drop (length l - n) l.

(** A chart slice of [n] slots showing [l] (at most [n] long): [l] at the
    right end, untouched zero values to its left. *)
Definition rightAligned {T : Type} (zero : T) (n : nat) (l : list T) : list T :=
  replicate (n - length l) zero ++ l.

(** The strictly positive ones among the values of a counter. *)
Definition positives (xs : list Z) : list Z := filter (fun x => 0 < x) xs.

(** What a counter's info field, linked list and chart slice of [n] slots
    hold once the values [xs] have been passed for it, oldest first: the
    last positive value, the last [n] positive values, and these at the
    right end of the slice. *)
Definition chartOf (n : nat) (xs : list Z) : series :=
  let fs := lastN n (map float64OfInt (positives xs)) in
  (default 0 (last (positives xs)), fs, rightAligned 0 n fs).

(** The queue of [n] slots once the values [vs] have been added, oldest
    first. *)
Definition queueAfter (n : nat) (vs : list float64) : queue :=
  let kept := lastN n (map Some vs) in
  {| qlist := kept; size := Z.of_nat n;
     data := rightAligned None n kept;
     dataFlatFloat :=
       match vs with
       | [] => None
       | _ => Some (if (length vs <? n)%nat then replicate n 0 else lastN n vs)
       end |}.

End gui.

(** ** The client workers *)

Module client.
Import listner.

(** The fields of [Client] that the workers use; the struct itself is
    declared next to [AddNodes].  A channel is held by what is waiting in
    it. *)
Record Client := {
  ctxDone : bool;  (* [c.ctx] has been cancelled *)
  newAddrCh : list (list string);  (* batches waiting in [c.newAddrCh], oldest first *)
  nodes : gmap string Node;  (* [c.nodes]: by the spec, a map from endpoint to node *)
  nodesNew : list Node;  (* [c.nodesNew] *)
  queueCh : list Node;  (* nodes waiting in [c.queueCh], oldest first *)
  nodeResCh : list Node;  (* nodes waiting in [c.nodeResCh], oldest first *)
  nodesGood : list Node;  (* [c.nodesGood] *)
  nodesDeadCnt : Z;  (* [c.nodesDeadCnt], an [int] *)
  activeConns : Z;  (* [c.activeConns], an [int32] *)
  guiCh : list gui.IncomingData;  (* records sent on [c.guiCh], oldest first *)
  clog : list LogEntry;  (* the calls of [c.log] *)
  saved : list (string * list Node)  (* the calls [storage.Save(path, nodes)] made so far *)
}.

Definition set_ctxDone (v : bool) (c : Client) : Client :=
  {| ctxDone := v; newAddrCh := newAddrCh c; nodes := nodes c;
     nodesNew := nodesNew c; queueCh := queueCh c; nodeResCh := nodeResCh c;
     nodesGood := nodesGood c; nodesDeadCnt := nodesDeadCnt c;
     activeConns := activeConns c; guiCh := guiCh c; clog := clog c;
     saved := saved c |}.
Definition set_newAddrCh (v : list (list string)) (c : Client) : Client :=
  {| ctxDone := ctxDone c; newAddrCh := v; nodes := nodes c;
     nodesNew := nodesNew c; queueCh := queueCh c; nodeResCh := nodeResCh c;
     nodesGood := nodesGood c; nodesDeadCnt := nodesDeadCnt c;
     activeConns := activeConns c; guiCh := guiCh c; clog := clog c;
     saved := saved c |}.
Definition set_nodes (v : gmap string Node) (c : Client) : Client :=
  {| ctxDone := ctxDone c; newAddrCh := newAddrCh c; nodes := v;
     nodesNew := nodesNew c; queueCh := queueCh c; nodeResCh := nodeResCh c;
     nodesGood := nodesGood c; nodesDeadCnt := nodesDeadCnt c;
     activeConns := activeConns c; guiCh := guiCh c; clog := clog c;
     saved := saved c |}.
Definition set_nodesNew (v : list Node) (c : Client) : Client :=
  {| ctxDone := ctxDone c; newAddrCh := newAddrCh c; nodes := nodes c;
     nodesNew := v; queueCh := queueCh c; nodeResCh := nodeResCh c;
     nodesGood := nodesGood c; nodesDeadCnt := nodesDeadCnt c;
     activeConns := activeConns c; guiCh := guiCh c; clog := clog c;
     saved := saved c |}.
Definition set_queueCh (v : list Node) (c : Client) : Client :=
  {| ctxDone := ctxDone c; newAddrCh := newAddrCh c; nodes := nodes c;
     nodesNew := nodesNew c; queueCh := v; nodeResCh := nodeResCh c;
     nodesGood := nodesGood c; nodesDeadCnt := nodesDeadCnt c;
     activeConns := activeConns c; guiCh := guiCh c; clog := clog c;
     saved := saved c |}.
Definition set_nodeResCh (v : list Node) (c : Client) : Client :=
  {| ctxDone := ctxDone c; newAddrCh := newAddrCh c; nodes := nodes c;
     nodesNew := nodesNew c; queueCh := queueCh c; nodeResCh := v;
     nodesGood := nodesGood c; nodesDeadCnt := nodesDeadCnt c;
     activeConns := activeConns c; guiCh := guiCh c; clog := clog c;
     saved := saved c |}.
Definition set_nodesGood (v : list Node) (c : Client) : Client :=
  {| ctxDone := ctxDone c; newAddrCh := newAddrCh c; nodes := nodes c;
     nodesNew := nodesNew c; queueCh := queueCh c; nodeResCh := nodeResCh c;
     nodesGood := v; nodesDeadCnt := nodesDeadCnt c;
     activeConns := activeConns c; guiCh := guiCh c; clog := clog c;
     saved := saved c |}.
Definition set_nodesDeadCnt (v : Z) (c : Client) : Client :=
  {| ctxDone := ctxDone c; newAddrCh := newAddrCh c; nodes := nodes c;
     nodesNew := nodesNew c; queueCh := queueCh c; nodeResCh := nodeResCh c;
     nodesGood := nodesGood c; nodesDeadCnt := v;
     activeConns := activeConns c; guiCh := guiCh c; clog := clog c;
     saved := saved c |}.
Definition set_activeConns (v : Z) (c : Client) : Client :=
  {| ctxDone := ctxDone c; newAddrCh := newAddrCh c; nodes := nodes c;
     nodesNew := nodesNew c; queueCh := queueCh c; nodeResCh := nodeResCh c;
     nodesGood := nodesGood c; nodesDeadCnt := nodesDeadCnt c;
     activeConns := v; guiCh := guiCh c; clog := clog c; saved := saved c |}.
Definition set_guiCh (v : list gui.IncomingData) (c : Client) : Client :=
  {| ctxDone := ctxDone c; newAddrCh := newAddrCh c; nodes := nodes c;
     nodesNew := nodesNew c; queueCh := queueCh c; nodeResCh := nodeResCh c;
     nodesGood := nodesGood c; nodesDeadCnt := nodesDeadCnt c;
     activeConns := activeConns c; guiCh := v; clog := clog c;
     saved := saved c |}.
Definition set_clog (v : list LogEntry) (c : Client) : Client :=
  {| ctxDone := ctxDone c; newAddrCh := newAddrCh c; nodes := nodes c;
     nodesNew := nodesNew c; queueCh := queueCh c; nodeResCh := nodeResCh c;
     nodesGood := nodesGood c; nodesDeadCnt := nodesDeadCnt c;
     activeConns := activeConns c; guiCh := guiCh c; clog := v;
     saved := saved c |}.
Definition set_saved (v : list (string * list Node)) (c : Client) : Client :=
  {| ctxDone := ctxDone c; newAddrCh := newAddrCh c; nodes := nodes c;
     nodesNew := nodesNew c; queueCh := queueCh c; nodeResCh := nodeResCh c;
     nodesGood := nodesGood c; nodesDeadCnt := nodesDeadCnt c;
     activeConns := activeConns c; guiCh := guiCh c; clog := clog c;
     saved := v |}.

Definition logc (l : Level) (f : string) (a : list string) (c : Client) : Client :=
  set_clog (clog c ++ [ {| level := l; format := f; args := a |} ]) c.

(** Modelled from the spec: the node that [AddNodes] creates for an endpoint
    it has not seen, in state [Discovered] ([Node] and its constructor are
    declared in a file that is not part of the sources at hand). *)
Definition newNode (ep : string) : Node :=
  {| endpoint := ep; state := Discovered; Conn := None;
     PingNonce := 0; PingCount := 0 |}.

(** Modelled from the spec: what [AddNodes] does with one endpoint.  An
    endpoint not already present in [nodes] gets a node in state
    [Discovered], inserted in [nodes] and appended to [nodesNew]; an endpoint
    already known, in any state, is ignored. *)
Definition addNode (c : Client) (ep : string) : Client :=
  match nodes c !! ep with
  | Some _ => c
  | None =>
      set_nodesNew (nodesNew c ++ [newNode ep])
        (set_nodes (<[ep := newNode ep]> (nodes c)) c)
  end.

(** Modelled from the spec: [c.AddNodes(ips)], the registry's
    [AddDiscovered], which [wNewAddrListner] calls and which is declared in
    a file that is not part of the sources at hand: the endpoints of the
    batch are added one by one, in order. *)
Definition AddNodes (ips : list string) (c : Client) : Client :=
  foldl addNode c ips.

(** [c.ActiveConns()] reads the counter (the method itself is declared
    next to [AddNodes]). *)
Definition ActiveConns (c : Client) : Z := activeConns c.

(** Which ready case a [select] takes: [<-c.ctx.Done()] or the other
    one.  When both are ready Go picks either. *)
Inductive choice := ChooseDone | ChooseOther.

(** *** wNewAddrListner *)

Inductive listenerPC := LSelect | LExited.

Definition listenerStep (ch : choice) (c : Client) (pc : listenerPC)
  : option (Client * listenerPC) :=
  match pc, ch with
  | LSelect, ChooseDone =>
      if ctxDone c
      then Some (logc LvDebug "[CLIENT]: LISTNER worker exited" [] c, LExited)
      else None
  | LSelect, ChooseOther =>
      match newAddrCh c with
      | ips :: rest => Some (AddNodes ips (set_newAddrCh rest c), LSelect)
      | [] => None
      end
  | LExited, _ => None
  end.

(** The listener run on its own against the cases its [select] takes, a
    received batch for [Some ips] and [ctx.Done()] for [None]: the client
    at the end. *)
Fixpoint listenerRun (events : list (option (list string))) (c : Client) : Client :=
  match events with
  | [] => c
  | None :: _ => logc LvDebug "[CLIENT]: LISTNER worker exited" [] c
  | Some ips :: events' => listenerRun events' (AddNodes ips c)
  end.

(** *** wNodesFeeder *)

Inductive feederPC :=
| FSelect             (* at the [select] *)
| FSleep              (* in [time.Sleep] *)
| FSend (n : Node)    (* at [c.queueCh <- n], holding [n] *)
| FExited.

Section Capacity.
(** The capacity of [c.queueCh]; the channel is made by the constructor
    of [Client], next to [AddNodes]. *)
Variable queueCap : nat.

(** One step of the feeder; [None] when it cannot move (it is blocked in
    the send, or it has returned).  The [default] arm is taken only when
    [ctx.Done()] is not ready. *)
Definition feederStep (c : Client) (pc : feederPC) : option (Client * feederPC) :=
  match pc with
  | FSelect =>
      if ctxDone c then Some (c, FExited)
      else
        match nodesNew c with
        | [] => Some (c, FSleep)
        | n :: rest => Some (set_nodesNew rest c, FSend n)
        end
  | FSleep => Some (c, FSelect)
  | FSend n =>
      if (length (queueCh c) <? queueCap)%nat
      then Some (set_queueCh (queueCh c ++ [n]) c, FSelect)
      else None
  | FExited => None
  end.
End Capacity.

(** *** wNodeResultsHandler *)

Inductive handlerPC := HSelect | HExited.

Definition handlerStep (ch : choice) (c : Client) (pc : handlerPC)
  : option (Client * handlerPC) :=
  match pc, ch with
  | HSelect, ChooseDone =>
      if ctxDone c
      then Some (logc LvDebug "[CLIENT]: ERRORS worker exited" [] c, HExited)
      else None
  | HSelect, ChooseOther =>
      match nodeResCh c with
      | n :: rest =>
          Some (set_nodesGood (nodesGood c ++ [n]) (set_nodeResCh rest c), HSelect)
      | [] => None
      end
  | HExited, _ => None
  end.

(** The handler run on its own against the cases its [select] takes, a
    received node for [Some n] and [ctx.Done()] for [None]: the list
    [c.nodesGood] at the end. *)
Fixpoint handlerRun (events : list (option Node)) (good : list Node) : list Node :=
  match events with
  | [] => good
  | None :: _ => good
  | Some n :: events' => handlerRun events' (good ++ [n])
  end.

(** *** wNodesConnector *)

(** What one call [n.Connect(c.ctx, c.nodeResCh)] did: whether it returned
    a non-nil error, and the nodes it sent on the result channel it was
    given.  [Connect] is declared next to [Node]. *)
Record ConnectOutcome := { failed : bool; reported : list Node }.

Inductive connPC :=
| CSelect               (* at the [select] *)
| CGot (n : Node)       (* received [n], before the increment *)
| CConnect (n : Node)   (* inside [n.Connect] *)
| CReturned (err : bool) (* [Connect] has returned, before [if err != nil] *)
| CRelease              (* before the decrement *)
| CExited.

Definition connStep (worker : nat) (ch : choice) (o : ConnectOutcome)
    (c : Client) (pc : connPC) : option (Client * connPC) :=
  match pc with
  | CSelect =>
      match ch with
      | ChooseDone =>
          if ctxDone c
          then Some (logc LvDebug "[CLIENT]: CONN_%d worker exited"
                          [pretty worker] c, CExited)
          else None
      | ChooseOther =>
          match queueCh c with
          | n :: rest => Some (set_queueCh rest c, CGot n)
          | [] => None
          end
      end
  | CGot n =>
      Some (set_activeConns (wrap t_int32 (activeConns c + 1)) c, CConnect n)
  | CConnect n =>
      Some (set_nodeResCh (nodeResCh c ++ reported o) c, CReturned (failed o))
  | CReturned err =>
      Some (if err then set_nodesDeadCnt (wrap t_int (nodesDeadCnt c + 1)) c else c,
            CRelease)
  | CRelease =>
      Some (set_activeConns (wrap t_int32 (activeConns c - 1)) c, CSelect)
  | CExited => None
  end.

(** *** wGuiUpdater *)

(** The period handed to [time.NewTicker], in nanoseconds. *)
Definition Second : Z := 1000000000.
Definition tickerPeriod : Z := 1 * Second.

Inductive updaterPC :=
| USelect                          (* at the [select] *)
| USend (d : gui.IncomingData)     (* at [c.guiCh <- d], holding [d] *)
| UReport (connCnt : Z)            (* the send is done, before the log lines *)
| UExited.

Section Config.
(** [cfg.ConnectionsLimit], and [filepath.Join(cfg.DataDir,
    cfg.NodesFilename)]. *)
Variable ConnectionsLimit : Z.
Variable path : string.

Definition snapshot (c : Client) : gui.IncomingData :=
  {| gui.Connections := ActiveConns c;
     gui.NodesTotal := Z.of_nat (size (nodes c));
     gui.NodesGood := Z.of_nat (length (nodesGood c));
     gui.NodesDead := nodesDeadCnt c;
     gui.NodesQueued := Z.of_nat (length (nodesNew c));
     gui.MsgIn := 0;
     gui.MsgOut := 0 |}.

(** [c.guiCh <- d], once the channel has taken the record.  The send is a
    bare one: until the channel takes the record (a receiver, or a free slot
    of its buffer; both are set up outside these sources) the updater stays
    in it. *)
Definition sent (d : gui.IncomingData) (c : Client) : Client :=
  set_guiCh (guiCh c ++ [d]) c.

(** The body of [case <-ticker.C] after the send: the two log lines, then
    the call of [storage.Save] when the good list is not empty.  [connCnt]
    is the count read before the send, [saveErr] is what [storage.Save]
    returns if it is called ([None] for [nil]).  The goroutine count and
    the memory figure of the second log line come from the runtime and are
    left out of its arguments. *)
Definition report (connCnt : Z) (saveErr : option string) (c : Client) : Client :=
  let c := logc LvDebug "[CLIENT]: STAT: total:%d, connected:%d/%d, good:%d, dead:%d"
                [pretty (size (nodes c)); pretty connCnt; pretty ConnectionsLimit;
                 pretty (length (nodesGood c)); pretty (nodesDeadCnt c)] c in
  let c := logc LvDebug "[CLIENT]: STAT: G:%d, MEM:%dKb" [] c in
  if (0 <? length (nodesGood c))%nat then
    let c := set_saved (saved c ++ [(path, nodesGood c)]) c in
    match saveErr with
    | Some e => logc LvError "[CLIENT]: STAT: failed to save nodes: %v" [e] c
    | None =>
        logc LvDebug "[CLIENT] STAT: saved %d node to %v"
             [pretty (length (nodesGood c)); path] c
    end
  else c.

(** The client after a whole pass through the body of [case <-ticker.C],
    with no other worker in between: the snapshot is built, sent and
    reported. *)
Definition ticked (saveErr : option string) (c : Client) : Client :=
  report (ActiveConns c) saveErr (sent (snapshot c) c).

(** The body of [case <-ticker.C], with no other worker in between;
    [taken] says whether the channel takes the record.  [None]: the updater
    stays in the send. *)
Definition onTick (taken : bool) (saveErr : option string) (c : Client)
  : option Client :=
  if taken then Some (ticked saveErr c) else None.

(** One step of the updater; [None] when it cannot move (it is in the send,
    or it has returned).  The send itself completes by [step_taken]
    below. *)
Definition updaterStep (ch : choice) (saveErr : option string)
    (c : Client) (pc : updaterPC) : option (Client * updaterPC) :=
  match pc with
  | USelect =>
      match ch with
      | ChooseDone =>
          if ctxDone c
          then Some (logc LvDebug "[CLIENT]: STAT: worker exited" [] c, UExited)
          else None
      | ChooseOther => Some (c, USend (snapshot c))
      end
  | USend _ => None
  | UReport connCnt => Some (report connCnt saveErr c, USelect)
  | UExited => None
  end.

(** What the updater's [select] takes, when the updater runs on its own:
    [ctx.Done()], or a tick, with whether the channel takes the record and
    what [storage.Save] returns. *)
Inductive updaterEvent :=
| TakeDone
| TakeTick (taken : bool) (saveErr : option string).

(** The updater run on its own against the cases its [select] takes: the
    client at the end, and where the updater is.  A record the channel does
    not take leaves the updater in its send, whatever would come next. *)
Fixpoint updaterRun (events : list updaterEvent) (c : Client)
  : Client * updaterPC :=
  match events with
  | [] => (c, USelect)
  | TakeDone :: _ => (logc LvDebug "[CLIENT]: STAT: worker exited" [] c, UExited)
  | TakeTick taken r :: events' =>
      match onTick taken r c with
      | Some c' => updaterRun events' c'
      | None => (c, USend (snapshot c))
      end
  end.
End Config.

(** *** The workers running together *)

Record System := {
  cl : Client;
  feeder : feederPC;
  conns : list connPC;
  handler : handlerPC;
  listener : listenerPC;
  updater : updaterPC
}.

Inductive actor :=
| Feeder
| Connector (i : nat)
| Handler
| Listener
| Updater
| Canceller        (* whoever cancels [c.ctx] *)
| Dispatcher       (* a connection announcing addresses *)
| Dashboard.       (* whoever takes a record from [c.guiCh] *)

Section Running.
Variable queueCap : nat.
Variable ConnectionsLimit : Z.
Variable path : string.

(** One atomic step of one worker, interleaved with the others. *)
Inductive step : System -> actor -> System -> Prop :=
| step_feeder s c' pc' :
    feederStep queueCap (cl s) (feeder s) = Some (c', pc') ->
    step s Feeder
         {| cl := c'; feeder := pc'; conns := conns s; handler := handler s;
            listener := listener s; updater := updater s |}
| step_handoff s n i :
    (* a receiver waiting at its [select] takes the node straight from
       the sender *)
    feeder s = FSend n ->
    queueCh (cl s) = [] ->
    conns s !! i = Some CSelect ->
    step s (Connector i)
         {| cl := cl s; feeder := FSelect; conns := <[i := CGot n]> (conns s);
            handler := handler s; listener := listener s; updater := updater s |}
| step_conn s i ch o pc c' pc' :
    conns s !! i = Some pc ->
    connStep i ch o (cl s) pc = Some (c', pc') ->
    step s (Connector i)
         {| cl := c'; feeder := feeder s; conns := <[i := pc']> (conns s);
            handler := handler s; listener := listener s; updater := updater s |}
| step_handler s ch c' pc' :
    handlerStep ch (cl s) (handler s) = Some (c', pc') ->
    step s Handler
         {| cl := c'; feeder := feeder s; conns := conns s; handler := pc';
            listener := listener s; updater := updater s |}
| step_listener s ch c' pc' :
    listenerStep ch (cl s) (listener s) = Some (c', pc') ->
    step s Listener
         {| cl := c'; feeder := feeder s; conns := conns s; handler := handler s;
            listener := pc'; updater := updater s |}
| step_updater s ch r c' pc' :
    updaterStep ConnectionsLimit path ch r (cl s) (updater s) = Some (c', pc') ->
    step s Updater
         {| cl := c'; feeder := feeder s; conns := conns s; handler := handler s;
            listener := listener s; updater := pc' |}
| step_cancel s :
    ctxDone (cl s) = false ->
    step s Canceller
         {| cl := set_ctxDone true (cl s); feeder := feeder s; conns := conns s;
            handler := handler s; listener := listener s; updater := updater s |}
| step_announce s batch :
    step s Dispatcher
         {| cl := set_newAddrCh (newAddrCh (cl s) ++ [batch]) (cl s);
            feeder := feeder s; conns := conns s; handler := handler s;
            listener := listener s; updater := updater s |}
| step_taken s d :
    (* the channel takes the record the updater is sending, which ends the
       send *)
    updater s = USend d ->
    step s Dashboard
         {| cl := sent d (cl s); feeder := feeder s; conns := conns s;
            handler := handler s; listener := listener s;
            updater := UReport (gui.Connections d) |}.


(** The same steps, as a function of a schedule: which worker moves
    next and, where the program leaves a choice or depends on the
    outside, which way it goes. *)
Inductive event :=
| EFeeder
| EHandoff (i : nat)
| EConn (i : nat) (ch : choice) (o : ConnectOutcome)
| EHandler (ch : choice)
| EListener (ch : choice)
| EUpdater (ch : choice) (r : option string)
| ECancel
| EAnnounce (batch : list string)
| ETaken.

Definition actorOf (e : event) : actor :=
  match e with
  | EFeeder => Feeder
  | EHandoff i | EConn i _ _ => Connector i
  | EHandler _ => Handler
  | EListener _ => Listener
  | EUpdater _ _ => Updater
  | ECancel => Canceller
  | EAnnounce _ => Dispatcher
  | ETaken => Dashboard
  end.

Definition fire (e : event) (s : System) : option System :=
  match e with
  | EFeeder =>
      match feederStep queueCap (cl s) (feeder s) with
      | Some (c', pc') =>
          Some {| cl := c'; feeder := pc'; conns := conns s; handler := handler s;
                  listener := listener s; updater := updater s |}
      | None => None
      end
  | EHandoff i =>
      match feeder s, queueCh (cl s), conns s !! i with
      | FSend n, [], Some CSelect =>
          Some {| cl := cl s; feeder := FSelect; conns := <[i := CGot n]> (conns s);
                  handler := handler s; listener := listener s;
                  updater := updater s |}
      | _, _, _ => None
      end
  | EConn i ch o =>
      match conns s !! i with
      | Some pc =>
          match connStep i ch o (cl s) pc with
          | Some (c', pc') =>
              Some {| cl := c'; feeder := feeder s; conns := <[i := pc']> (conns s);
                      handler := handler s; listener := listener s;
                      updater := updater s |}
          | None => None
          end
      | None => None
      end
  | EHandler ch =>
      match handlerStep ch (cl s) (handler s) with
      | Some (c', pc') =>
          Some {| cl := c'; feeder := feeder s; conns := conns s; handler := pc';
                  listener := listener s; updater := updater s |}
      | None => None
      end
  | EListener ch =>
      match listenerStep ch (cl s) (listener s) with
      | Some (c', pc') =>
          Some {| cl := c'; feeder := feeder s; conns := conns s;
                  handler := handler s; listener := pc'; updater := updater s |}
      | None => None
      end
  | EUpdater ch r =>
      match updaterStep ConnectionsLimit path ch r (cl s) (updater s) with
      | Some (c', pc') =>
          Some {| cl := c'; feeder := feeder s; conns := conns s;
                  handler := handler s; listener := listener s; updater := pc' |}
      | None => None
      end
  | ECancel =>
      if ctxDone (cl s) then None
      else Some {| cl := set_ctxDone true (cl s); feeder := feeder s;
                   conns := conns s; handler := handler s;
                   listener := listener s; updater := updater s |}
  | EAnnounce batch =>
      Some {| cl := set_newAddrCh (newAddrCh (cl s) ++ [batch]) (cl s);
              feeder := feeder s; conns := conns s; handler := handler s;
              listener := listener s; updater := updater s |}
  | ETaken =>
      match updater s with
      | USend d =>
          Some {| cl := sent d (cl s); feeder := feeder s; conns := conns s;
                  handler := handler s; listener := listener s;
                  updater := UReport (gui.Connections d) |}
      | _ => None
      end
  end.

Fixpoint run (schedule : list event) (s : System) : option System :=
  match schedule with
  | [] => Some s
  | e :: schedule' =>
      match fire e s with
      | Some s' => run schedule' s'
      | None => None
      end
  end.

(** What the event [e], fired in state [s], makes a [Connect] report on
    the result channel: the nodes of its outcome when [e] is the return of
    the [Connect] of a connector, nothing otherwise. *)
Definition reportOf (e : event) (s : System) : list Node :=
  match e with
  | EConn i _ o =>
      match conns s !! i with
      | Some (CConnect _) => reported o
      | _ => []
      end
  | _ => []
  end.

(** Everything the [Connect] calls report along a schedule run from [s],
    in order. *)
Fixpoint reportedBy (schedule : list event) (s : System) : list Node :=
  match schedule with
  | [] => []
  | e :: schedule' =>
      match fire e s with
      | Some s' => reportOf e s ++ reportedBy schedule' s'
      | None => []
      end
  end.

(** The steps in which the dashboard channel takes nothing. *)
Definition quietStep (s s' : System) : Prop :=
  exists a, a <> Dashboard /\ step s a s'.

Definition steps (s s' : System) : Prop := exists a, step s a s'.

(** The client right after its workers were started: [workers]
    connectors, every worker at its [select], nothing in flight. *)
Definition started (workers : nat) (c : Client) : System :=
  {| cl := c; feeder := FSelect; conns := replicate workers CSelect;
     handler := HSelect; listener := LSelect; updater := USelect |}.

Definition reachable (workers : nat) (c : Client) (s : System) : Prop :=
  rtc steps (started workers c) s.
End Running.

(** A connector is handling an endpoint from its increment of the counter
    to its decrement. *)
Definition connecting (pc : connPC) : bool :=
  match pc with
  | CConnect _ | CReturned _ | CRelease => true
  | _ => false
  end.

Definition connectingCount (l : list connPC) : nat :=
  length (filter (fun pc => connecting pc = true) l).

(** A fresh client: empty registry, empty channels, counters at zero. *)
Definition emptyClient : Client :=
  {| ctxDone := false; newAddrCh := []; nodes := ∅; nodesNew := [];
     queueCh := []; nodeResCh := []; nodesGood := []; nodesDeadCnt := 0;
     activeConns := 0; guiCh := []; clog := []; saved := [] |}.

(** The node the feeder has taken from [c.nodesNew] and not yet put in
    [c.queueCh]. *)
Definition held (pc : feederPC) : list Node :=
  match pc with
  | FSend n => [n]
  | _ => []
  end.

(** A connector handling the endpoint it has received, from the increment
    to the decrement: the four steps after the receive, for the outcome [o]
    of its [Connect]. *)
Definition handleOne (worker : nat) (o : ConnectOutcome) (n : Node) (c : Client)
  : option (Client * connPC) :=
  '(c1, pc1) ← connStep worker ChooseOther o c (CGot n);
  '(c2, pc2) ← connStep worker ChooseOther o c1 pc1;
  '(c3, pc3) ← connStep worker ChooseOther o c2 pc2;
  connStep worker ChooseOther o c3 pc3.

(** *** Invariants used below *)

(** What a run of [addNode] over the endpoints [eps] leaves behind. *)
Record added (eps : list string) (c c' : Client) : Prop := {
  added_dom : dom (nodes c') = dom (nodes c) ∪ list_to_set eps;
  added_known : forall ep n, nodes c !! ep = Some n -> nodes c' !! ep = Some n;
  added_new : forall ep, ep ∈ eps -> nodes c !! ep = None ->
                         nodes c' !! ep = Some (newNode ep);
  added_queue : exists fresh,
      nodesNew c' = nodesNew c ++ map newNode fresh /\
      NoDup fresh /\
      (forall ep, ep ∈ fresh <-> ep ∈ eps /\ nodes c !! ep = None);
  added_frame :
      queueCh c' = queueCh c /\ nodeResCh c' = nodeResCh c /\
      nodesGood c' = nodesGood c /\ nodesDeadCnt c' = nodesDeadCnt c /\
      activeConns c' = activeConns c
}.

(** The counter equals the number of connectors between their increment
    and their decrement, and the pool keeps its size. *)
Definition counted (workers : nat) (s : System) : Prop :=
  activeConns (cl s) = Z.of_nat (connectingCount (conns s)) /\
  length (conns s) = workers.

End client.

(** * Sample data *)

(** A node with an outstanding ping, on an open connection. *)
Definition sampleNode : listner.Node :=
  {| listner.endpoint := "[203.0.113.7]:8333"; listner.state := listner.Connecting;
     listner.Conn := Some 1; listner.PingNonce := 7; listner.PingCount := 2 |}.

Definition sampleWorld : listner.World :=
  {| listner.node := sampleNode; listner.logs := []; listner.stdout := [];
     listner.newNodesCh := [] |}.

(** A snapshot with every counter positive, and the one that follows when
    every counter has dropped to zero. *)
Definition busyData : gui.IncomingData :=
  {| gui.Connections := 3; gui.NodesTotal := 40; gui.NodesGood := 2;
     gui.NodesDead := 7; gui.NodesQueued := 5; gui.MsgIn := 11; gui.MsgOut := 4 |}.

Definition idleData : gui.IncomingData :=
  {| gui.Connections := 0; gui.NodesTotal := 0; gui.NodesGood := 0;
     gui.NodesDead := 0; gui.NodesQueued := 0; gui.MsgIn := 0; gui.MsgOut := 0 |}.

(** A connection attempt that is refused: [Connect] returns an error and
    reports nothing. *)
Definition refused : client.ConnectOutcome :=
  {| client.failed := true; client.reported := [] |}.

(** One connector and a work queue of capacity one.  A peer announces one
    address, which is registered, fed to the connector and dialled. *)
Definition dialSchedule : list (client.event) :=
  [client.EAnnounce ["a"]; client.EListener client.ChooseOther;
   client.EFeeder; client.EFeeder;
   client.EConn 0 client.ChooseOther refused;
   client.EConn 0 client.ChooseOther refused].

(** The client while that address is being dialled. *)
Definition dialling : client.System :=
  {| client.cl :=
       {| client.ctxDone := false; client.newAddrCh := [];
          client.nodes := {[ "a" := client.newNode "a" ]};
          client.nodesNew := []; client.queueCh := []; client.nodeResCh := [];
          client.nodesGood := []; client.nodesDeadCnt := 0; client.activeConns := 1;
          client.guiCh := []; client.clog := []; client.saved := [] |};
     client.feeder := client.FSelect;
     client.conns := [client.CConnect (client.newNode "a")];
     client.handler := client.HSelect; client.listener := client.LSelect;
     client.updater := client.USelect |}.

(** The same client after [Connect] has returned its error, and after the
    connector's next step. *)
Definition dialFailed : client.System :=
  {| client.cl := client.cl dialling; client.feeder := client.FSelect;
     client.conns := [client.CReturned true];
     client.handler := client.HSelect; client.listener := client.LSelect;
     client.updater := client.USelect |}.

Definition dialCounted : client.System :=
  {| client.cl := client.set_nodesDeadCnt 1 (client.cl dialling);
     client.feeder := client.FSelect;
     client.conns := [client.CRelease];
     client.handler := client.HSelect; client.listener := client.LSelect;
     client.updater := client.USelect |}.

(** One connector and a work queue of capacity one.  A peer announces
    three addresses; the first is being dialled, the second fills the queue,
    the feeder has taken the third and waits in its send.  Then the context
    is cancelled, the dial fails and every worker that looks at the context
    returns. *)
Definition shutdownSchedule : list (client.event) :=
  [client.EAnnounce ["a"; "b"; "c"]; client.EListener client.ChooseOther;
   client.EFeeder; client.EFeeder;
   client.EConn 0 client.ChooseOther refused;
   client.EConn 0 client.ChooseOther refused;
   client.EFeeder; client.EFeeder; client.EFeeder;
   client.ECancel;
   client.EConn 0 client.ChooseOther refused;
   client.EConn 0 client.ChooseOther refused;
   client.EConn 0 client.ChooseOther refused;
   client.EConn 0 client.ChooseDone refused;
   client.EHandler client.ChooseDone;
   client.EListener client.ChooseDone;
   client.EUpdater client.ChooseDone None].

(** Where that schedule ends. *)
Definition blockedFeeder : client.System :=
  {| client.cl :=
       {| client.ctxDone := true; client.newAddrCh := [];
          client.nodes :=
            list_to_map [("a", client.newNode "a"); ("b", client.newNode "b");
                         ("c", client.newNode "c")];
          client.nodesNew := [];
          client.queueCh := [client.newNode "b"];
          client.nodeResCh := []; client.nodesGood := [];
          client.nodesDeadCnt := 1; client.activeConns := 0;
          client.guiCh := [];
          client.clog :=
            [ {| level := LvDebug; format := "[CLIENT]: CONN_%d worker exited";
                 args := ["0"] |};
              {| level := LvDebug; format := "[CLIENT]: ERRORS worker exited";
                 args := [] |};
              {| level := LvDebug; format := "[CLIENT]: LISTNER worker exited";
                 args := [] |};
              {| level := LvDebug; format := "[CLIENT]: STAT: worker exited";
                 args := [] |} ];
          client.saved := [] |};
     client.feeder := client.FSend (client.newNode "c");
     client.conns := [client.CExited];
     client.handler := client.HExited; client.listener := client.LExited;
     client.updater := client.UExited |}.

(** A client with one good node on record. *)
Definition oneGood : client.Client :=
  client.set_nodesGood [sampleNode] client.emptyClient.

(** What holds, from [blockedFeeder] on, whatever happens next. *)
Definition feederStaysBlocked (s : client.System) : Prop :=
  client.ctxDone (client.cl s) = true /\
  client.feeder s = client.FSend (client.newNode "c") /\
  client.conns s = [client.CExited] /\
  client.handler s = client.HExited /\
  client.listener s = client.LExited /\
  client.updater s = client.UExited /\
  client.queueCh (client.cl s) = [client.newNode "b"] /\
  client.nodesNew (client.cl s) = [].

(** An address announcement, a pong that answers the outstanding ping of
    [sampleNode], the same pong again, then the end of the stream and a
    message that is never read. *)
Definition sampleScript : list wire.ReadResult :=
  [wire.ReadOk 55 (wire.MsgAddr [ {| wire.IP := "198.51.100.4"; wire.Port := 8333 |};
                                  {| wire.IP := "2001:db8::1"; wire.Port := 18333 |} ]) [];
   wire.ReadOk 32 (wire.MsgPong 7) [];
   wire.ReadOk 32 (wire.MsgPong 7) [];
   wire.ReadErr 0 wire.EOF;
   wire.ReadOk 24 wire.MsgVerAck []].

(** [sampleWorld] with no ping outstanding. *)
Definition restingWorld : listner.World :=
  {| listner.node :=
       {| listner.endpoint := "[203.0.113.7]:8333"; listner.state := listner.Connecting;
          listner.Conn := Some 1; listner.PingNonce := 0; listner.PingCount := 2 |};
     listner.logs := []; listner.stdout := []; listner.newNodesCh := [] |}.

(** A connection attempt that succeeds and reports its node. *)
Definition accepted : client.ConnectOutcome :=
  {| client.failed := false; client.reported := [client.newNode "a"] |}.

(** One connector and a work queue of capacity one.  A peer announces one
    address, which is registered, fed to the connector, dialled with
    success, reported and recorded. *)
Definition recordSchedule : list (client.event) :=
  [client.EAnnounce ["a"]; client.EListener client.ChooseOther;
   client.EFeeder; client.EFeeder;
   client.EConn 0 client.ChooseOther accepted;
   client.EConn 0 client.ChooseOther accepted;
   client.EConn 0 client.ChooseOther accepted;
   client.EHandler client.ChooseOther].

(** [recordSchedule], then a tick of the publisher: the snapshot is built
    and the publisher is in its send on the dashboard channel. *)
Definition tickSchedule : list (client.event) :=
  recordSchedule ++ [client.EUpdater client.ChooseOther None].

(** Where that schedule ends. *)
Definition pendingSnapshot : client.System :=
  {| client.cl :=
       {| client.ctxDone := false; client.newAddrCh := [];
          client.nodes := {[ "a" := client.newNode "a" ]};
          client.nodesNew := []; client.queueCh := []; client.nodeResCh := [];
          client.nodesGood := [client.newNode "a"];
          client.nodesDeadCnt := 0; client.activeConns := 1;
          client.guiCh := []; client.clog := []; client.saved := [] |};
     client.feeder := client.FSelect;
     client.conns := [client.CReturned false];
     client.handler := client.HSelect; client.listener := client.LSelect;
     client.updater :=
       client.USend {| gui.Connections := 1; gui.NodesTotal := 1; gui.NodesGood := 1;
                       gui.NodesDead := 0; gui.NodesQueued := 0;
                       gui.MsgIn := 0; gui.MsgOut := 0 |} |}.

(** A client whose feeder has just put a node in the work queue. *)
Definition queuedOne : client.System :=
  client.started 1 (client.set_queueCh [client.newNode "a"] client.emptyClient).

(** A client with two nodes discovered and nothing else. *)
Definition twoDiscovered : client.Client :=
  client.set_nodesNew [client.newNode "a"; client.newNode "b"] client.emptyClient.

(** Thirty-two updates with the same busy snapshot. *)
Definition busyCalls : list gui.call := replicate 32 (gui.CallUpdate busyData).

(** * Properties *)

(** ** Go integers *)

Lemma wrap_in_range (t : intType) (z : Z) :
  0 < it_bits t -> inRange t z -> wrap t z = z.
Proof.
  unfold inRange, wrap, minOf, maxOf. intros Hb Hz.
  assert (Hpow : 2 ^ it_bits t = 2 * 2 ^ (it_bits t - 1)).
  { rewrite <- Z.pow_succ_r by lia. f_equal. lia. }
  assert (0 < 2 ^ (it_bits t - 1)) by (apply Z.pow_pos_nonneg; lia).
  destruct (it_signed t); rewrite Z.mod_small; lia.
Qed.

Lemma wrap_succ (t : intType) (z : Z) :
  0 < it_bits t -> inRange t z -> z < maxOf t -> wrap t (z + 1) = z + 1.
Proof.
  intros Hb Hz Hlt. apply wrap_in_range; [done|].
  unfold inRange in *. lia.
Qed.

(** ** The dispatcher *)

Section Dispatcher.
Import wire listner.
Variable T : intType.

Lemma logf_node l f a w : node (logf l f a w) = node w.
Proof. reflexivity. Qed.

Lemma logf_newNodesCh l f a w : newNodesCh (logf l f a w) = newNodesCh w.
Proof. reflexivity. Qed.

(** No arm of the type switch touches the connection. *)
Lemma dispatch_Conn m w : Conn (node (dispatch T m w)) = Conn (node w).
Proof.
  destruct m; try reflexivity.
  simpl. unfold onPong. simpl. by destruct (_ =? _).
Qed.

Lemma onRead_not_EOF r w :
  isEOF r = false ->
  fst (onRead T r w) = Continue /\
  Conn (node (snd (onRead T r w))) = Conn (node w).
Proof.
  destruct r as [cnt m raw | cnt [] ]; simpl; try done.
  intros _. split; [done|]. by rewrite dispatch_Conn.
Qed.

(** A script without end-of-stream is read to its end, and the loop then
    sits in the next read. *)
Lemma connListenFrom_no_EOF script : forall k w,
  Conn (node w) <> None ->
  Forall (fun r => isEOF r = false) script ->
  exists w', connListenFrom T k script w = Reading (k + length script) w' /\
             Conn (node w') = Conn (node w).
Proof.
  induction script as [|r script IH]; intros k w Hc Hs; simpl.
  - destruct (Conn (node w)) eqn:E; [|done].
    eexists. split; [f_equal; lia | by simpl].
  - destruct (Conn (node w)) eqn:E; [|done].
    inversion Hs as [|? ? Hr Hs']; subst.
    destruct (onRead_not_EOF r (println w) Hr) as [Hctl Hconn].
    destruct (onRead T r (println w)) as [ctl w1] eqn:E1. simpl in *. subst ctl.
    destruct (IH (S k) w1) as (w' & Hrun & Hc'); [congruence | done |].
    exists w'. split; [rewrite Hrun; f_equal; lia | congruence].
Qed.

Lemma connListenFrom_app_EOF pre : forall k cnt post w,
  Conn (node w) <> None ->
  Forall (fun r => isEOF r = false) pre ->
  exists w', connListenFrom T k (pre ++ ReadErr cnt EOF :: post) w
             = Returned (k + S (length pre)) w' /\
             Conn (node w') = None.
Proof.
  induction pre as [|r pre IH]; intros k cnt post w Hc Hs; simpl.
  - destruct (Conn (node w)) eqn:E; [|done].
    eexists. split; [f_equal; lia | done].
  - destruct (Conn (node w)) eqn:E; [|done].
    inversion Hs as [|? ? Hr Hs']; subst.
    destruct (onRead_not_EOF r (println w) Hr) as [Hctl Hconn].
    destruct (onRead T r (println w)) as [ctl w1] eqn:E1. simpl in *. subst ctl.
    destruct (IH (S k) cnt post w1) as (w' & Hrun & Hc'); [congruence | done |].
    exists w'. split; [rewrite Hrun; f_equal; lia | done].
Qed.

(** C3.  An incoming pong whose nonce equals the node's [PingNonce] adds
    one to [PingCount] (in the arithmetic of the field's integer type, so
    exactly one whenever the count is below the type's maximum) and sets
    [PingNonce] to 0; a pong with another nonce logs the mismatch and
    leaves the node, [PingCount] and [PingNonce] included, as it was.
    Either way the loop goes on. *)
Theorem pong_matches_or_is_ignored (cnt nonce : Z) (raw : list Z) (w : World)
    (Hbits : 0 < it_bits T) :
  let r := onRead T (ReadOk cnt (MsgPong nonce) raw) w in
  fst r = Continue /\
  (nonce = PingNonce (node w) ->
     PingCount (node (snd r)) = wrap T (PingCount (node w) + 1) /\
     (inRange T (PingCount (node w)) -> PingCount (node w) < maxOf T ->
        PingCount (node (snd r)) = PingCount (node w) + 1) /\
     PingNonce (node (snd r)) = 0) /\
  (nonce <> PingNonce (node w) ->
     node (snd r) = node w /\
     PingCount (node (snd r)) = PingCount (node w) /\
     PingNonce (node (snd r)) = PingNonce (node w) /\
     last (logs (snd r)) =
       Some {| level := LvWarn;
               format := "%s pong nonce mismatch, expected %v, got %v";
               args := [pretty (PingNonce (node w)); pretty nonce] |}).
Proof.
  simpl. unfold onPong. simpl. split; [done|]. split.
  - intros ->. rewrite Z.eqb_refl. simpl. split; [done|]. split; [|done].
    intros Hr Hlt. by apply wrap_succ.
  - intros Hne. apply Z.eqb_neq in Hne. rewrite Hne. simpl.
    repeat split. by rewrite last_snoc.
Qed.

(** C4.  For a dispatcher that holds a connection: a read that fails with
    the unknown-message error is logged and the loop continues; a read that
    fails with any other error but end-of-stream is logged and the loop
    continues; no read result but end-of-stream ends the loop, so a script
    of reads without end-of-stream is consumed whole with the dispatcher
    still reading, and the first end-of-stream makes it return with the
    connection released. *)
Theorem only_end_of_stream_returns (pre : list ReadResult) (w : World)
    (Hconn : Conn (node w) <> None)
    (Hpre : Forall (fun r => isEOF r = false) pre) :
  (forall cnt w0,
      onRead T (ReadErr cnt ErrUnknownMessage) w0 =
      (Continue, logf LvWarn "%s ERR: unknown message, ignoring" [] w0)) /\
  (forall cnt e w0,
      fst (onRead T (ReadErr cnt (ErrOther e)) w0) = Continue /\
      node (snd (onRead T (ReadErr cnt (ErrOther e)) w0)) = node w0 /\
      newNodesCh (snd (onRead T (ReadErr cnt (ErrOther e)) w0)) = newNodesCh w0 /\
      map level (drop (length (logs w0))
                      (logs (snd (onRead T (ReadErr cnt (ErrOther e)) w0))))
        = [LvWarn; LvWarn; LvWarn; LvWarn]) /\
  (forall r w0, fst (onRead T r w0) = Return <-> isEOF r = true) /\
  (exists w', connListen T pre w = Reading (length pre) w' /\
              Conn (node w') = Conn (node w)) /\
  (forall cnt post,
      exists w', connListen T (pre ++ ReadErr cnt EOF :: post) w
                 = Returned (S (length pre)) w' /\
                 Conn (node w') = None).
Proof.
  split; [done|]. split.
  { intros cnt e w0. simpl. repeat split.
    rewrite <- !app_assoc. rewrite drop_app_length. done. }
  split.
  { intros r w0. destruct r as [cnt m raw | cnt [] ]; simpl; split; done. }
  split.
  - destruct (connListenFrom_no_EOF pre 0%nat w Hconn Hpre) as (w' & H1 & H2).
    by exists w'.
  - intros cnt post.
    destruct (connListenFrom_app_EOF pre 0%nat cnt post w Hconn Hpre)
      as (w' & H1 & H2).
    by exists w'.
Qed.

(** C5.  An addr or addrv2 message announcing [k] endpoints makes the
    dispatcher send exactly one batch on the discovery channel, of length
    [k], whose [i]-th entry is the [i]-th announced endpoint, written as its
    host between square brackets, a colon and its port in decimal; the node
    (its classification included) is left as it was and the loop goes on. *)
Theorem addr_sends_one_batch (cnt : Z) (raw : list Z) (w : World) :
  (forall l : list NetAddress,
      let r := onRead T (ReadOk cnt (MsgAddr l) raw) w in
      let batch := map (fun a => "[" +:+ IP a +:+ "]:" +:+ pretty (Port a)) l in
      fst r = Continue /\
      newNodesCh (snd r) = newNodesCh w ++ [batch] /\
      length (newNodesCh (snd r)) = S (length (newNodesCh w)) /\
      length batch = length l /\
      (forall i a, l !! i = Some a ->
                   batch !! i = Some ("[" +:+ IP a +:+ "]:" +:+ pretty (Port a))) /\
      node (snd r) = node w) /\
  (forall l : list NetAddressV2,
      let r := onRead T (ReadOk cnt (MsgAddrV2 l) raw) w in
      let batch := map (fun a => "[" +:+ Addr a +:+ "]:" +:+ pretty (PortV2 a)) l in
      fst r = Continue /\
      newNodesCh (snd r) = newNodesCh w ++ [batch] /\
      length (newNodesCh (snd r)) = S (length (newNodesCh w)) /\
      length batch = length l /\
      (forall i a, l !! i = Some a ->
                   batch !! i = Some ("[" +:+ Addr a +:+ "]:" +:+ pretty (PortV2 a))) /\
      node (snd r) = node w).
Proof.
  split; intros l r batch; subst r batch.
  - split; [done|]. split; [done|]. split.
    { cbn [onRead dispatch snd send logf newNodesCh]. rewrite length_app. simpl. lia. }
    split; [by rewrite length_map|]. split; [|done].
    intros i a Hi. by rewrite list_lookup_fmap, Hi.
  - split; [done|]. split; [done|]. split.
    { cbn [onRead dispatch snd send logf newNodesCh]. rewrite length_app. simpl. lia. }
    split; [by rewrite length_map|]. split; [|done].
    intros i a Hi. by rewrite list_lookup_fmap, Hi.
Qed.

End Dispatcher.

Lemma pong_matches_or_is_ignored_witness :
  listner.PingCount
    (listner.node (snd (listner.onRead t_int (wire.ReadOk 32 (wire.MsgPong 7) []) sampleWorld)))
  = 3 /\
  listner.PingNonce
    (listner.node (snd (listner.onRead t_int (wire.ReadOk 32 (wire.MsgPong 7) []) sampleWorld)))
  = 0 /\
  listner.node (snd (listner.onRead t_int (wire.ReadOk 32 (wire.MsgPong 8) []) sampleWorld))
  = sampleNode.
Proof.
  assert (Hb : 0 < it_bits t_int) by reflexivity.
  destruct (pong_matches_or_is_ignored t_int 32 7 [] sampleWorld Hb) as (_ & Hm & _).
  destruct (pong_matches_or_is_ignored t_int 32 8 [] sampleWorld Hb) as (_ & _ & Hn).
  destruct (Hm eq_refl) as (_ & Hinc & Hnonce).
  assert (Hne : 8 <> listner.PingNonce (listner.node sampleWorld)) by (vm_compute; discriminate).
  destruct (Hn Hne) as (Hnode & _).
  split; [| split; [exact Hnonce | exact Hnode]].
  apply Hinc; [vm_compute; split; discriminate | reflexivity].
Defined.

Lemma addr_sends_one_batch_witness :
  listner.newNodesCh
    (snd (listner.onRead t_int
            (wire.ReadOk 55
               (wire.MsgAddr [ {| wire.IP := "198.51.100.4"; wire.Port := 8333 |};
                               {| wire.IP := "2001:db8::1"; wire.Port := 18333 |} ]) [])
            sampleWorld))
  = [ ["[198.51.100.4]:8333"; "[2001:db8::1]:18333"] ] /\
  listner.newNodesCh
    (snd (listner.onRead t_int
            (wire.ReadOk 31
               (wire.MsgAddrV2 [ {| wire.Addr := "203.0.113.9"; wire.PortV2 := 8333 |} ]) [])
            sampleWorld))
  = [ ["[203.0.113.9]:8333"] ] /\
  listner.node
    (snd (listner.onRead t_int
            (wire.ReadOk 31
               (wire.MsgAddrV2 [ {| wire.Addr := "203.0.113.9"; wire.PortV2 := 8333 |} ]) [])
            sampleWorld))
  = sampleNode.
Proof.
  destruct (addr_sends_one_batch t_int 55 [] sampleWorld) as [Haddr _].
  destruct (addr_sends_one_batch t_int 31 [] sampleWorld) as [_ Hv2].
  destruct (Haddr [ {| wire.IP := "198.51.100.4"; wire.Port := 8333 |};
                    {| wire.IP := "2001:db8::1"; wire.Port := 18333 |} ])
    as (_ & Hch & _).
  destruct (Hv2 [ {| wire.Addr := "203.0.113.9"; wire.PortV2 := 8333 |} ])
    as (_ & Hch2 & _ & _ & _ & Hnode).
  split; [exact Hch|]. split; [exact Hch2 | exact Hnode].
Defined.

Lemma only_end_of_stream_returns_witness :
  exists w',
    listner.connListen t_int
      [wire.ReadErr 0 wire.ErrUnknownMessage;
       wire.ReadErr 3 (wire.ErrOther "unexpected EOF");
       wire.ReadOk 32 (wire.MsgPing 5) [];
       wire.ReadErr 0 wire.EOF;
       wire.ReadOk 24 wire.MsgVerAck []] sampleWorld
    = listner.Returned 4 w' /\ listner.Conn (listner.node w') = None.
Proof.
  assert (Hc : listner.Conn (listner.node sampleWorld) <> None) by (vm_compute; discriminate).
  assert (Hp : Forall (fun r => listner.isEOF r = false)
                 [wire.ReadErr 0 wire.ErrUnknownMessage;
                  wire.ReadErr 3 (wire.ErrOther "unexpected EOF");
                  wire.ReadOk 32 (wire.MsgPing 5) []])
    by (repeat constructor).
  destruct (only_end_of_stream_returns t_int _ sampleWorld Hc Hp) as (_ & _ & _ & _ & H).
  exact (H 0 [wire.ReadOk 24 wire.MsgVerAck []]).
Defined.

(** ** The registry fed by the address listener *)

Section Registry.
Import listner client.


Lemma added_nil c : added [] c c.
Proof.
  split; try done.
  - simpl. set_solver.
  - intros ep Hin. by apply elem_of_nil in Hin.
  - exists []. simpl. rewrite app_nil_r. split; [done|]. split; [constructor|].
    intros ep. split; [intros Hin; by apply elem_of_nil in Hin | intros [Hin _]; by apply elem_of_nil in Hin].
Qed.

Lemma added_snoc eps e c c' :
  added eps c c' -> added (eps ++ [e]) c (addNode c' e).
Proof.
  intros [Hdom Hknown Hnew (fresh & Hq & Hnd & Hfresh) Hframe].
  unfold addNode. destruct (nodes c' !! e) as [n|] eqn:He.
  - (* a known endpoint: nothing changes *)
    assert (Hin : e ∈ dom (nodes c')) by (apply elem_of_dom; eauto).
    split; try done.
    + rewrite Hdom, list_to_set_app_L. simpl. rewrite Hdom in Hin. set_solver.
    + intros ep Hep Hnone. apply elem_of_app in Hep as [Hep | Hep]; [by apply Hnew|].
      apply list_elem_of_singleton in Hep as ->.
      rewrite Hdom in Hin. apply elem_of_union in Hin as [Hin | Hin].
      * apply elem_of_dom in Hin as [x Hx]. congruence.
      * apply elem_of_list_to_set in Hin. by apply Hnew.
    + exists fresh. split; [done|]. split; [done|].
      intros ep. rewrite Hfresh. split.
      * intros [Hep Hnone]. split; [|done]. apply elem_of_app. by left.
      * intros [Hep Hnone]. split; [|done].
        apply elem_of_app in Hep as [Hep | Hep]; [done|].
        apply list_elem_of_singleton in Hep as ->.
        rewrite Hdom in Hin. apply elem_of_union in Hin as [Hin | Hin].
        -- apply elem_of_dom in Hin as [x Hx]. congruence.
        -- by apply elem_of_list_to_set in Hin.
  - (* a new endpoint: registered and queued *)
    assert (Hnin : e ∉ dom (nodes c')) by (by apply not_elem_of_dom).
    assert (Hc : nodes c !! e = None).
    { apply not_elem_of_dom. rewrite Hdom in Hnin. set_solver. }
    assert (Hne : e ∉ eps).
    { rewrite Hdom in Hnin. intros Hin. apply Hnin. apply elem_of_union. right.
      by apply elem_of_list_to_set. }
    split; simpl.
    + rewrite dom_insert_L, Hdom, list_to_set_app_L. simpl. set_solver.
    + intros ep n Hep. destruct (decide (e = ep)) as [->|Hd]; [congruence|].
      rewrite lookup_insert_ne by done. by apply Hknown.
    + intros ep Hep Hnone. destruct (decide (e = ep)) as [->|Hd].
      * by rewrite lookup_insert_eq.
      * rewrite lookup_insert_ne by done. apply Hnew; [|done].
        apply elem_of_app in Hep as [Hep | Hep]; [done|].
        apply list_elem_of_singleton in Hep. congruence.
    + exists (fresh ++ [e]). rewrite Hq, map_app, app_assoc. split; [done|]. split.
      * apply NoDup_app. split; [done|]. split; [|apply NoDup_singleton].
        intros x Hx Hx'. apply list_elem_of_singleton in Hx' as ->.
        apply Hfresh in Hx as [Hx _]. done.
      * intros ep. rewrite !elem_of_app, Hfresh, !list_elem_of_singleton.
        split; [intros [[? ?] | ->]; auto | intros [[? | ->] ?]; auto].
    + done.
Qed.

Lemma added_foldl eps : forall c, added eps c (foldl addNode c eps).
Proof.
  induction eps as [|e eps IH] using rev_ind; intros c.
  - apply added_nil.
  - rewrite foldl_app. simpl. by apply added_snoc.
Qed.

(** The listener's loop over received batches is one run of [addNode] over
    the endpoints of all batches, in order. *)
Lemma listenerRun_concat batches : forall c,
  listenerRun (map Some batches) c = foldl addNode c (concat batches).
Proof.
  induction batches as [|b batches IH]; intros c; simpl; [done|].
  rewrite IH. unfold AddNodes. by rewrite foldl_app.
Qed.

(** C7.  Over the registry as the spec describes it, for any sequence of
    discovery batches received by the listener, with any duplicates: the
    node count grows by exactly the number of distinct announced endpoints
    that were not registered before; each of them is registered in state
    Discovered and appended once to the discovery queue; a registered
    endpoint keeps its node and is not queued again. *)
Theorem discovery_counts_distinct_new (batches : list (list string)) (c : Client) :
  let c' := listenerRun (map Some batches) c in
  let announced : gset string := list_to_set (concat batches) in
  size (nodes c') = (size (nodes c) + size (announced ∖ dom (nodes c)))%nat /\
  dom (nodes c') = dom (nodes c) ∪ announced /\
  (forall ep n, nodes c !! ep = Some n -> nodes c' !! ep = Some n) /\
  (forall ep, ep ∈ announced -> nodes c !! ep = None ->
              nodes c' !! ep = Some (newNode ep) /\
              state (newNode ep) = Discovered) /\
  (exists fresh,
      nodesNew c' = nodesNew c ++ map newNode fresh /\
      NoDup fresh /\
      (forall ep, ep ∈ fresh <-> ep ∈ announced /\ nodes c !! ep = None)).
Proof.
  intros c' announced. subst c'. rewrite listenerRun_concat.
  destruct (added_foldl (concat batches) c)
    as [Hdom Hknown Hnew (fresh & Hq & Hnd & Hfresh) _].
  split.
  { rewrite <- !size_dom, Hdom. fold announced.
    rewrite size_union_alt. done. }
  split; [done|]. split; [done|]. split.
  { intros ep Hin Hnone. split; [|done]. apply Hnew; [|done].
    by apply elem_of_list_to_set in Hin. }
  exists fresh. split; [done|]. split; [done|].
  intros ep. rewrite Hfresh. unfold announced. by rewrite elem_of_list_to_set.
Qed.

End Registry.

Lemma discovery_counts_distinct_new_witness :
  size (client.nodes
          (client.listenerRun [Some ["a"; "b"; "a"]; Some ["b"; "c"]] client.emptyClient))
  = 3%nat.
Proof.
  destruct (discovery_counts_distinct_new [["a"; "b"; "a"]; ["b"; "c"]] client.emptyClient)
    as (Hsize & _).
  etrans; [exact Hsize | vm_compute; reflexivity].
Defined.

(** ** The result handler *)

Section ResultHandler.
Import listner client.

Lemma handlerRun_all ns : forall good,
  handlerRun (map Some ns) good = good ++ ns.
Proof.
  induction ns as [|n ns IH]; intros good; simpl.
  - by rewrite app_nil_r.
  - by rewrite IH, <- app_assoc.
Qed.

(** C10.  The result handler appends every node it receives to the good
    list, whatever the list already holds: after [n] received nodes the
    list is the old one followed by the [n] nodes in order, so its length
    has grown by exactly [n], and a node received twice is in it twice. *)
Theorem handler_appends_every_result (ns good : list Node) :
  handlerRun (map Some ns) good = good ++ ns /\
  length (handlerRun (map Some ns) good) = (length good + length ns)%nat /\
  (forall n, handlerRun [Some n; Some n] good = good ++ [n; n]) /\
  (forall n rest c,
      handlerStep ChooseOther (set_nodeResCh (n :: rest) c) HSelect =
      Some (set_nodesGood (nodesGood c ++ [n]) (set_nodeResCh rest c), HSelect)).
Proof.
  split; [apply handlerRun_all|]. split.
  { by rewrite handlerRun_all, length_app. }
  split; [|done].
  intros n. simpl. by rewrite <- app_assoc.
Qed.

End ResultHandler.

(** ** The snapshot publisher *)

Section Publisher.
Import listner client.
Variable ConnectionsLimit : Z.
Variable path : string.

Lemma report_saved n r c :
  saved (report ConnectionsLimit path n r c) =
  if decide (nodesGood c = []) then saved c else saved c ++ [(path, nodesGood c)].
Proof.
  unfold report. simpl. destruct (nodesGood c) as [|x l] eqn:E; simpl; [done|].
  by destruct r.
Qed.

Lemma report_nodesGood n r c :
  nodesGood (report ConnectionsLimit path n r c) = nodesGood c.
Proof.
  unfold report. simpl. destruct (nodesGood c) as [|x l] eqn:E; simpl; [done|].
  by destruct r.
Qed.

Lemma report_guiCh n r c :
  guiCh (report ConnectionsLimit path n r c) = guiCh c.
Proof.
  unfold report. simpl. destruct (nodesGood c) as [|x l] eqn:E; simpl; [done|].
  by destruct r.
Qed.

Lemma ticked_saved r c :
  saved (ticked ConnectionsLimit path r c) =
  if decide (nodesGood c = []) then saved c else saved c ++ [(path, nodesGood c)].
Proof. unfold ticked. by rewrite report_saved. Qed.

Lemma ticked_nodesGood r c :
  nodesGood (ticked ConnectionsLimit path r c) = nodesGood c.
Proof. unfold ticked. by rewrite report_nodesGood. Qed.

Lemma updaterRun_keeps_running rs : forall c,
  snd (updaterRun ConnectionsLimit path (map (TakeTick true) rs) c) = USelect.
Proof. induction rs as [|r rs IH]; intros c; simpl; [done | apply IH]. Qed.


End Publisher.

(** ** The dashboard state *)

Section Dashboard.
Import gui.

(** Above [2^53] the conversion rounds, but never down to zero. *)
Lemma roundHalfEven_pos z e : 0 <= e -> 2 ^ e <= z -> 0 < roundHalfEven z e.
Proof.
  intros He Hz. unfold roundHalfEven.
  assert (Hp : 0 < 2 ^ e) by (apply Z.pow_pos_nonneg; lia).
  assert (Hq : 0 < z / 2 ^ e) by (apply Z.div_str_pos; lia).
  repeat case_match; nia.
Qed.

Lemma float64OfInt_pos z : 0 < z -> 0 < float64OfInt z.
Proof.
  intros Hz. unfold float64OfInt, float64OfNonneg.
  destruct (z <? 0) eqn:E0; [lia|].
  destruct (z <? 2 ^ 53) eqn:E; [done|].
  apply Z.ltb_ge in E.
  assert (H53 : 53 <= Z.log2 z).
  { apply Z.log2_le_pow2; lia. }
  apply roundHalfEven_pos; [lia|].
  transitivity (2 ^ Z.log2 z).
  - apply Z.pow_le_mono_r; lia.
  - apply Z.log2_spec. lia.
Qed.

Lemma float64OfInt_not_skipped z : 0 < z -> skipped (float64OfInt z) = false.
Proof.
  intros Hz. unfold skipped, skipped_float64. apply Z.eqb_neq.
  pose proof (float64OfInt_pos z Hz). lia.
Qed.

Lemma stepSeries_nonpositive limit x v : x <= 0 -> stepSeries limit x v = v.
Proof. intros Hx. unfold stepSeries. by destruct (Z.ltb_spec 0 x); [lia|]. Qed.

Lemma stepSeries_positive limit x i l m :
  0 < x ->
  stepSeries limit x (i, l, m) =
  (x, pushBounded l (float64OfInt x) limit,
   copyBack (rev (pushBounded l (float64OfInt x) limit)) 0 m limit).
Proof.
  intros Hx. unfold stepSeries, updateDataList. simpl.
  destruct (Z.ltb_spec 0 x); [|lia].
  by rewrite float64OfInt_not_skipped.
Qed.

Lemma stepTotal_nonpositive x q : x <= 0 -> stepTotal x q = q.
Proof. intros Hx. unfold stepTotal. by destruct (Z.ltb_spec 0 x); [lia|]. Qed.

Lemma stepInfo_nonpositive x i : x <= 0 -> stepInfo x i = i.
Proof. intros Hx. unfold stepInfo. by destruct (Z.ltb_spec 0 x); [lia|]. Qed.

Ltac block f :=
  unfold f, stored, connectionsSeries, nodesQueuedSeries, nodesGoodSeries,
    nodesDeadSeries, stepSeries, stepTotal, stepInfo; simpl;
  destruct (0 <? _); [try destruct (updateDataList _ _ _ _) | ]; reflexivity.

Lemma updConnections_stored d g :
  stored (updConnections d g) =
  (stepSeries lenConnChart (Connections d) (connectionsSeries g), dataNodesTotal g,
   nodesQueuedSeries g, nodesGoodSeries g, nodesDeadSeries g, infoMsgIn g, infoMsgOut g).
Proof. block updConnections. Qed.

Lemma updNodesTotal_stored d g :
  stored (updNodesTotal d g) =
  (connectionsSeries g, stepTotal (NodesTotal d) (dataNodesTotal g),
   nodesQueuedSeries g, nodesGoodSeries g, nodesDeadSeries g, infoMsgIn g, infoMsgOut g).
Proof. block updNodesTotal. Qed.

Lemma updNodesQueued_stored d g :
  stored (updNodesQueued d g) =
  (connectionsSeries g, dataNodesTotal g,
   stepSeries lenNodesChart (NodesQueued d) (nodesQueuedSeries g),
   nodesGoodSeries g, nodesDeadSeries g, infoMsgIn g, infoMsgOut g).
Proof. block updNodesQueued. Qed.

Lemma updNodesGood_stored d g :
  stored (updNodesGood d g) =
  (connectionsSeries g, dataNodesTotal g, nodesQueuedSeries g,
   stepSeries lenNodesChart (NodesGood d) (nodesGoodSeries g),
   nodesDeadSeries g, infoMsgIn g, infoMsgOut g).
Proof. block updNodesGood. Qed.

Lemma updNodesDead_stored d g :
  stored (updNodesDead d g) =
  (connectionsSeries g, dataNodesTotal g, nodesQueuedSeries g, nodesGoodSeries g,
   stepSeries lenNodesChart (NodesDead d) (nodesDeadSeries g),
   infoMsgIn g, infoMsgOut g).
Proof. block updNodesDead. Qed.

Lemma updMsgIn_stored d g :
  stored (updMsgIn d g) =
  (connectionsSeries g, dataNodesTotal g, nodesQueuedSeries g, nodesGoodSeries g,
   nodesDeadSeries g, stepInfo (MsgIn d) (infoMsgIn g), infoMsgOut g).
Proof. block updMsgIn. Qed.

Lemma updMsgOut_stored d g :
  stored (updMsgOut d g) =
  (connectionsSeries g, dataNodesTotal g, nodesQueuedSeries g, nodesGoodSeries g,
   nodesDeadSeries g, infoMsgIn g, stepInfo (MsgOut d) (infoMsgOut g)).
Proof. block updMsgOut. Qed.

Lemma stored_eq g c t q gd dd i o :
  stored g = (c, t, q, gd, dd, i, o) ->
  connectionsSeries g = c /\ dataNodesTotal g = t /\ nodesQueuedSeries g = q /\
  nodesGoodSeries g = gd /\ nodesDeadSeries g = dd /\
  infoMsgIn g = i /\ infoMsgOut g = o.
Proof.
  unfold stored. intros H.
  split; [exact (f_equal (fun x => x.1.1.1.1.1.1) H)|].
  split; [exact (f_equal (fun x => x.1.1.1.1.1.2) H)|].
  split; [exact (f_equal (fun x => x.1.1.1.1.2) H)|].
  split; [exact (f_equal (fun x => x.1.1.1.2) H)|].
  split; [exact (f_equal (fun x => x.1.1.2) H)|].
  split; [exact (f_equal (fun x => x.1.2) H)|].
  exact (f_equal (fun x => x.2) H).
Qed.

(** [Update] works field by field: what it stores for one field of the
    incoming record depends on that field alone. *)
Lemma Update_stored d g :
  stored (Update d g) =
  (stepSeries lenConnChart (Connections d) (connectionsSeries g),
   stepTotal (NodesTotal d) (dataNodesTotal g),
   stepSeries lenNodesChart (NodesQueued d) (nodesQueuedSeries g),
   stepSeries lenNodesChart (NodesGood d) (nodesGoodSeries g),
   stepSeries lenNodesChart (NodesDead d) (nodesDeadSeries g),
   stepInfo (MsgIn d) (infoMsgIn g),
   stepInfo (MsgOut d) (infoMsgOut g)).
Proof.
  unfold Update.
  rewrite updMsgOut_stored.
  pose proof (updMsgIn_stored d (updNodesDead d (updNodesGood d (updNodesQueued d
                (updNodesTotal d (updConnections d g)))))) as H6.
  pose proof (updNodesDead_stored d (updNodesGood d (updNodesQueued d
                (updNodesTotal d (updConnections d g))))) as H5.
  pose proof (updNodesGood_stored d (updNodesQueued d
                (updNodesTotal d (updConnections d g)))) as H4.
  pose proof (updNodesQueued_stored d (updNodesTotal d (updConnections d g))) as H3.
  pose proof (updNodesTotal_stored d (updConnections d g)) as H2.
  pose proof (updConnections_stored d g) as H1.
  apply stored_eq in H1 as (? & ? & ? & ? & ? & ? & ?).
  apply stored_eq in H2 as (? & ? & ? & ? & ? & ? & ?).
  apply stored_eq in H3 as (? & ? & ? & ? & ? & ? & ?).
  apply stored_eq in H4 as (? & ? & ? & ? & ? & ? & ?).
  apply stored_eq in H5 as (? & ? & ? & ? & ? & ? & ?).
  apply stored_eq in H6 as (? & ? & ? & ? & ? & ? & ?).
  congruence.
Qed.

(** C9.  For every record passed to [Update]: a field that is zero or
    negative leaves what the dashboard stores for it (the info field, the
    linked list and the chart slice; for the total, the queue) as it was;
    a strictly positive field is recorded.  So after a positive count, an
    update in which the count has dropped to zero shows the old count. *)
Theorem update_records_only_positive (d : IncomingData) (g : GUI) :
  let g' := Update d g in
  ((Connections d <= 0 -> connectionsSeries g' = connectionsSeries g) /\
   (NodesTotal d <= 0 -> dataNodesTotal g' = dataNodesTotal g) /\
   (NodesQueued d <= 0 -> nodesQueuedSeries g' = nodesQueuedSeries g) /\
   (NodesGood d <= 0 -> nodesGoodSeries g' = nodesGoodSeries g) /\
   (NodesDead d <= 0 -> nodesDeadSeries g' = nodesDeadSeries g) /\
   (MsgIn d <= 0 -> infoMsgIn g' = infoMsgIn g) /\
   (MsgOut d <= 0 -> infoMsgOut g' = infoMsgOut g)) /\
  ((0 < Connections d ->
      infoConnections g' = Connections d /\
      dataConnectionsList g' =
        pushBounded (dataConnectionsList g) (float64OfInt (Connections d)) lenConnChart) /\
   (0 < NodesTotal d ->
      dataNodesTotal g' = AddFloat (float64OfInt (NodesTotal d)) (dataNodesTotal g)) /\
   (0 < NodesQueued d ->
      infoNodesQueued g' = NodesQueued d /\
      dataNodesQueuedList g' =
        pushBounded (dataNodesQueuedList g) (float64OfInt (NodesQueued d)) lenNodesChart) /\
   (0 < NodesGood d ->
      infoNodesGood g' = NodesGood d /\
      dataNodesGoodList g' =
        pushBounded (dataNodesGoodList g) (float64OfInt (NodesGood d)) lenNodesChart) /\
   (0 < NodesDead d ->
      infoNodesDead g' = NodesDead d /\
      dataNodesDeadList g' =
        pushBounded (dataNodesDeadList g) (float64OfInt (NodesDead d)) lenNodesChart) /\
   (0 < MsgIn d -> infoMsgIn g' = MsgIn d) /\
   (0 < MsgOut d -> infoMsgOut g' = MsgOut d)) /\
  (forall d0, 0 < NodesQueued d -> NodesQueued d0 = 0 ->
     infoNodesQueued (Update d0 g') = NodesQueued d /\
     dataNodesQueued (Update d0 g') = dataNodesQueued g').
Proof.
  intros g'.
  assert (Hall : forall d1 g1,
    connectionsSeries (Update d1 g1)
      = stepSeries lenConnChart (Connections d1) (connectionsSeries g1) /\
    dataNodesTotal (Update d1 g1) = stepTotal (NodesTotal d1) (dataNodesTotal g1) /\
    nodesQueuedSeries (Update d1 g1)
      = stepSeries lenNodesChart (NodesQueued d1) (nodesQueuedSeries g1) /\
    nodesGoodSeries (Update d1 g1)
      = stepSeries lenNodesChart (NodesGood d1) (nodesGoodSeries g1) /\
    nodesDeadSeries (Update d1 g1)
      = stepSeries lenNodesChart (NodesDead d1) (nodesDeadSeries g1) /\
    infoMsgIn (Update d1 g1) = stepInfo (MsgIn d1) (infoMsgIn g1) /\
    infoMsgOut (Update d1 g1) = stepInfo (MsgOut d1) (infoMsgOut g1)).
  { intros d1 g1. apply stored_eq, Update_stored. }
  destruct (Hall d g) as (Hc & Ht & Hq & Hg & Hd & Hi & Ho). fold g' in Hc, Ht, Hq, Hg, Hd, Hi, Ho.
  assert (Hser : forall limit x (v v' : series),
            v' = stepSeries limit x v -> 0 < x ->
            v'.1.1 = x /\ v'.1.2 = pushBounded v.1.2 (float64OfInt x) limit).
  { intros limit x [[i l] m] v' -> Hx. by rewrite stepSeries_positive. }
  split; [|split].
  - split; [intros H; by rewrite Hc, stepSeries_nonpositive|].
    split; [intros H; by rewrite Ht, stepTotal_nonpositive|].
    split; [intros H; by rewrite Hq, stepSeries_nonpositive|].
    split; [intros H; by rewrite Hg, stepSeries_nonpositive|].
    split; [intros H; by rewrite Hd, stepSeries_nonpositive|].
    split; [intros H; by rewrite Hi, stepInfo_nonpositive|].
    intros H; by rewrite Ho, stepInfo_nonpositive.
  - split; [intros H; exact (Hser _ _ _ _ Hc H)|].
    split.
    { intros H. rewrite Ht. unfold stepTotal. by destruct (Z.ltb_spec 0 (NodesTotal d)); [|lia]. }
    split; [intros H; exact (Hser _ _ _ _ Hq H)|].
    split; [intros H; exact (Hser _ _ _ _ Hg H)|].
    split; [intros H; exact (Hser _ _ _ _ Hd H)|].
    split.
    { intros H. rewrite Hi. unfold stepInfo. by destruct (Z.ltb_spec 0 (MsgIn d)); [|lia]. }
    intros H. rewrite Ho. unfold stepInfo. by destruct (Z.ltb_spec 0 (MsgOut d)); [|lia].
  - intros d0 Hpos Hzero.
    destruct (Hall d0 g') as (_ & _ & Hq0 & _).
    rewrite stepSeries_nonpositive in Hq0 by lia.
    split.
    + transitivity ((nodesQueuedSeries g').1.1); [exact (f_equal (fun v => v.1.1) Hq0)|].
      exact (proj1 (Hser _ _ _ _ Hq Hpos)).
    + exact (f_equal (fun v => v.2) Hq0).
Qed.

End Dashboard.

Lemma update_records_only_positive_witness :
  gui.infoNodesQueued (gui.Update idleData (gui.Update busyData (gui.New 8))) = 5 /\
  gui.nodesGoodSeries (gui.Update idleData (gui.Update busyData (gui.New 8)))
  = gui.nodesGoodSeries (gui.Update busyData (gui.New 8)).
Proof.
  destruct (update_records_only_positive busyData (gui.New 8)) as (_ & _ & Hdrop).
  destruct (update_records_only_positive idleData (gui.Update busyData (gui.New 8)))
    as ((_ & _ & _ & Hgood & _) & _).
  split.
  - apply (Hdrop idleData); reflexivity.
  - apply Hgood. vm_compute. discriminate.
Defined.

(** ** The workers running together *)

Section Workers.
Import listner client.
Variable queueCap : nat.
Variable ConnectionsLimit : Z.
Variable path : string.

#[local] Abbreviation step := (step queueCap ConnectionsLimit path).
#[local] Abbreviation steps := (steps queueCap ConnectionsLimit path).
#[local] Abbreviation fire := (fire queueCap ConnectionsLimit path).
#[local] Abbreviation run := (run queueCap ConnectionsLimit path).

(** The schedule-driven function and the step relation are the same
    thing. *)
Lemma fire_step e s s' : fire e s = Some s' -> step s (actorOf e) s'.
Proof.
  destruct e; simpl; intros H.
  - destruct (feederStep _ _ _) as [[c' pc']|] eqn:E; [|done].
    injection H as <-. by apply step_feeder.
  - destruct (feeder s) eqn:Ef; try done.
    destruct (queueCh (cl s)) eqn:Eq; try done.
    destruct (conns s !! i) as [[]|] eqn:Ei; try done.
    injection H as <-. by apply step_handoff.
  - destruct (conns s !! i) as [pc|] eqn:Ei; [|done].
    destruct (connStep _ _ _ _ _) as [[c' pc']|] eqn:E; [|done].
    injection H as <-. by eapply step_conn.
  - destruct (handlerStep _ _ _) as [[c' pc']|] eqn:E; [|done].
    injection H as <-. by eapply step_handler.
  - destruct (listenerStep _ _ _) as [[c' pc']|] eqn:E; [|done].
    injection H as <-. by eapply step_listener.
  - destruct (updaterStep _ _ _ _ _ _) as [[c' pc']|] eqn:E; [|done].
    injection H as <-. by eapply step_updater.
  - destruct (ctxDone (cl s)) eqn:E; [done|].
    injection H as <-. by apply step_cancel.
  - injection H as <-. apply step_announce.
  - destruct (updater s) eqn:Eu; try done.
    injection H as <-. by apply step_taken.
Qed.

Lemma step_fire s a s' : step s a s' -> exists e, fire e s = Some s' /\ actorOf e = a.
Proof.
  intros H. destruct H.
  - exists EFeeder. simpl. by rewrite H.
  - exists (EHandoff i). simpl. by rewrite H, H0, H1.
  - exists (EConn i ch o). simpl. by rewrite H, H0.
  - exists (EHandler ch). simpl. by rewrite H.
  - exists (EListener ch). simpl. by rewrite H.
  - exists (EUpdater ch r). simpl. by rewrite H.
  - exists ECancel. simpl. by rewrite H.
  - by exists (EAnnounce batch).
  - exists ETaken. simpl. by rewrite H.
Qed.

Lemma run_steps schedule : forall s s', run schedule s = Some s' -> rtc steps s s'.
Proof.
  induction schedule as [|e schedule IH]; simpl; intros s s' H.
  - injection H as <-. apply rtc_refl.
  - destruct (fire e s) as [s1|] eqn:E; [|done].
    eapply rtc_l; [|by apply IH]. eexists. by apply fire_step.
Qed.

(** *** Who writes what *)

Lemma AddNodes_frame ips c :
  nodesGood (AddNodes ips c) = nodesGood c /\
  nodesDeadCnt (AddNodes ips c) = nodesDeadCnt c /\
  activeConns (AddNodes ips c) = activeConns c.
Proof.
  destruct (added_foldl ips c) as [_ _ _ _ (_ & _ & Hg & Hd & Ha)].
  unfold AddNodes. done.
Qed.

Lemma feederStep_frame c pc c' pc' :
  feederStep queueCap c pc = Some (c', pc') ->
  nodesGood c' = nodesGood c /\ nodesDeadCnt c' = nodesDeadCnt c /\
  activeConns c' = activeConns c.
Proof.
  destruct pc; simpl; intros H; repeat case_match; simplify_eq; done.
Qed.

Lemma handlerStep_frame ch c pc c' pc' :
  handlerStep ch c pc = Some (c', pc') ->
  nodesDeadCnt c' = nodesDeadCnt c /\ activeConns c' = activeConns c.
Proof.
  destruct pc, ch; simpl; intros H; repeat case_match; simplify_eq; done.
Qed.

Lemma listenerStep_frame ch c pc c' pc' :
  listenerStep ch c pc = Some (c', pc') ->
  nodesGood c' = nodesGood c /\ nodesDeadCnt c' = nodesDeadCnt c /\
  activeConns c' = activeConns c.
Proof.
  destruct pc, ch; simpl; intros H; repeat case_match; simplify_eq; try done.
  match goal with
  | |- context [AddNodes ?ips ?c0] =>
      destruct (AddNodes_frame ips c0) as (-> & -> & ->)
  end.
  done.
Qed.

Lemma report_frame n r c :
  nodesGood (report ConnectionsLimit path n r c) = nodesGood c /\
  nodesDeadCnt (report ConnectionsLimit path n r c) = nodesDeadCnt c /\
  activeConns (report ConnectionsLimit path n r c) = activeConns c.
Proof.
  unfold report. simpl. destruct (nodesGood c) eqn:E; simpl; [done|]. by destruct r.
Qed.

Lemma updaterStep_frame ch r c pc c' pc' :
  updaterStep ConnectionsLimit path ch r c pc = Some (c', pc') ->
  nodesGood c' = nodesGood c /\ nodesDeadCnt c' = nodesDeadCnt c /\
  activeConns c' = activeConns c.
Proof.
  destruct pc, ch; simpl; intros H; repeat case_match; simplify_eq; try done;
    apply report_frame.
Qed.

Lemma connStep_nodesGood i ch o c pc c' pc' :
  connStep i ch o c pc = Some (c', pc') -> nodesGood c' = nodesGood c.
Proof.
  destruct pc, ch; simpl; intros H; repeat case_match; simplify_eq; done.
Qed.

(** *** The active-connection counter *)

Lemma connectingCount_le l : (connectingCount l <= length l)%nat.
Proof. apply length_filter. Qed.

Lemma connectingCount_insert l : forall i pc pc',
  l !! i = Some pc ->
  Z.of_nat (connectingCount (<[i := pc']> l)) =
  Z.of_nat (connectingCount l) - Z.b2z (connecting pc) + Z.b2z (connecting pc').
Proof.
  unfold connectingCount.
  induction l as [|x l IH]; intros [|i] pc pc' H; simpl in *; try done.
  - injection H as ->. rewrite !filter_cons.
    destruct (connecting pc), (connecting pc'); simpl;
      repeat case_decide; simpl; try done; lia.
  - rewrite !filter_cons. specialize (IH i pc pc' H).
    case_decide; simpl; lia.
Qed.

Lemma connectingCount_replicate k : connectingCount (replicate k CSelect) = 0%nat.
Proof.
  unfold connectingCount. induction k as [|k IH]; [done|].
  simpl replicate. rewrite filter_cons_False; [exact IH | simpl; congruence].
Qed.

Lemma int32_bounds : minOf t_int32 = -2147483648 /\ maxOf t_int32 = 2147483647.
Proof. split; reflexivity. Qed.


Lemma counted_step workers s a s' :
  Z.of_nat workers <= maxOf t_int32 ->
  step s a s' -> counted workers s -> counted workers s'.
Proof.
  intros Hmax Hstep [Hc Hl]. unfold counted.
  destruct Hstep as [s c' pc' Hf | s n i Hfe Hq Hi | s i ch o pc c' pc' Hi Hs
                    | s ch c' pc' Hh | s ch c' pc' Hli | s ch r c' pc' Hu
                    | s Hd | s batch | s d Hsend]; simpl.
  - apply feederStep_frame in Hf as (_ & _ & ->). done.
  - rewrite length_insert. split; [|done].
    rewrite (connectingCount_insert _ _ _ _ Hi). simpl. lia.
  - rewrite length_insert. split; [|done].
    pose proof (connectingCount_insert _ _ _ pc' Hi) as Hins.
    pose proof (connectingCount_le (<[i := pc']> (conns s))) as Hle.
    rewrite length_insert in Hle.
    destruct int32_bounds as [Hmin Hmx].
    rewrite Hins.
    destruct pc, ch; simpl in Hs; repeat case_match; simplify_eq; simpl in *;
      try lia.
    all: rewrite wrap_in_range; [lia | done | unfold inRange; lia].
  - apply handlerStep_frame in Hh as (_ & ->). done.
  - apply listenerStep_frame in Hli as (_ & _ & ->). done.
  - apply updaterStep_frame in Hu as (_ & _ & ->). done.
  - done.
  - done.
  - done.
Qed.

(** C2.  With as many connectors as the configured connection limit (a
    limit that fits the counter's [int32]) and the counter starting at
    zero: in every reachable state the counter is the number of connectors
    that are between their increment and their decrement, each connector
    handling one endpoint at a time, so it is at least 0 and at most the
    limit. *)
Theorem active_connections_bounded (c : Client) (s : System)
    (Hlimit : 0 <= ConnectionsLimit <= maxOf t_int32)
    (Hzero : activeConns c = 0)
    (Hreach : reachable queueCap ConnectionsLimit path
                        (Z.to_nat ConnectionsLimit) c s) :
  activeConns (cl s) = Z.of_nat (connectingCount (conns s)) /\
  length (conns s) = Z.to_nat ConnectionsLimit /\
  0 <= activeConns (cl s) <= ConnectionsLimit.
Proof.
  assert (Hinv : counted (Z.to_nat ConnectionsLimit) s).
  { unfold reachable in Hreach. revert s Hreach. apply rtc_ind_r.
    - split; simpl; [|by rewrite length_replicate].
      by rewrite Hzero, connectingCount_replicate.
    - intros s1 s2 _ Hst IH. destruct Hst as [a Hstep].
      eapply counted_step; [lia | exact Hstep | exact IH]. }
  destruct Hinv as [Hc Hl]. split; [done|]. split; [done|].
  pose proof (connectingCount_le (conns s)). lia.
Qed.

(** Only a connector changes the dead count, and only the handler changes
    the good list. *)
Lemma dead_count_writer s a s' :
  step s a s' -> nodesDeadCnt (cl s') <> nodesDeadCnt (cl s) ->
  exists i, a = Connector i.
Proof.
  intros Hstep Hne.
  destruct Hstep as [s c' pc' Hf | s n i Hfe Hq Hi | s i ch o pc c' pc' Hi Hs
                    | s ch c' pc' Hh | s ch c' pc' Hli | s ch r c' pc' Hu
                    | s Hd | s batch | s d Hsend]; simpl in Hne; eauto.
  - apply feederStep_frame in Hf as (_ & Hd & _). done.
  - apply handlerStep_frame in Hh as (Hd & _). done.
  - apply listenerStep_frame in Hli as (_ & Hd & _). done.
  - apply updaterStep_frame in Hu as (_ & Hd & _). done.
  - done.
  - done.
  - done.
Qed.

Lemma good_list_writer s a s' :
  step s a s' -> nodesGood (cl s') <> nodesGood (cl s) -> a = Handler.
Proof.
  intros Hstep Hne.
  destruct Hstep as [s c' pc' Hf | s n i Hfe Hq Hi | s i ch o pc c' pc' Hi Hs
                    | s ch c' pc' Hh | s ch c' pc' Hli | s ch r c' pc' Hu
                    | s Hd | s batch | s d Hsend]; simpl in Hne; try done.
  - apply feederStep_frame in Hf as (Hg & _). done.
  - apply connStep_nodesGood in Hs. done.
  - apply listenerStep_frame in Hli as (Hg & _). done.
  - apply updaterStep_frame in Hu as (Hg & _). done.
Qed.

End Workers.

(** ** The publisher in its send *)

Section PublisherWaits.
Import listner client.
Variable queueCap : nat.
Variable ConnectionsLimit : Z.
Variable path : string.

#[local] Abbreviation step := (step queueCap ConnectionsLimit path).
#[local] Abbreviation quietStep := (quietStep queueCap ConnectionsLimit path).

Lemma AddNodes_outputs ips : forall c,
  saved (AddNodes ips c) = saved c /\ guiCh (AddNodes ips c) = guiCh c.
Proof.
  unfold AddNodes. induction ips as [|ep ips IH]; intros c; simpl; [done|].
  destruct (IH (addNode c ep)) as [-> ->]. unfold addNode. by case_match.
Qed.

Lemma feederStep_outputs c pc c' pc' :
  feederStep queueCap c pc = Some (c', pc') ->
  saved c' = saved c /\ guiCh c' = guiCh c.
Proof.
  destruct pc; simpl; intros H; repeat case_match; simplify_eq; done.
Qed.

Lemma connStep_outputs i ch o c pc c' pc' :
  connStep i ch o c pc = Some (c', pc') ->
  saved c' = saved c /\ guiCh c' = guiCh c.
Proof.
  destruct pc, ch; simpl; intros H; repeat case_match; simplify_eq; done.
Qed.

Lemma handlerStep_outputs ch c pc c' pc' :
  handlerStep ch c pc = Some (c', pc') ->
  saved c' = saved c /\ guiCh c' = guiCh c.
Proof.
  destruct pc, ch; simpl; intros H; repeat case_match; simplify_eq; done.
Qed.

Lemma listenerStep_outputs ch c pc c' pc' :
  listenerStep ch c pc = Some (c', pc') ->
  saved c' = saved c /\ guiCh c' = guiCh c.
Proof.
  destruct pc, ch; simpl; intros H; repeat case_match; simplify_eq; try done.
  match goal with
  | |- context [AddNodes ?ips ?c0] =>
      destruct (AddNodes_outputs ips c0) as (-> & ->)
  end.
  done.
Qed.

(** While the updater is in its send and the channel takes nothing, no
    step of any worker moves the updater, calls [storage.Save] or puts a
    record on the dashboard channel. *)
Lemma quietStep_keeps_send s s' d :
  quietStep s s' -> updater s = USend d ->
  updater s' = USend d /\ saved (cl s') = saved (cl s) /\
  guiCh (cl s') = guiCh (cl s).
Proof.
  intros (a & Ha & Hstep) Hsend.
  destruct Hstep as [s c' pc' Hf | s n i Hfe Hq Hi | s i ch o pc c' pc' Hi Hs
                    | s ch c' pc' Hh | s ch c' pc' Hli | s ch r c' pc' Hu
                    | s Hd | s batch | s d' Hsend']; simpl; try done.
  - by destruct (feederStep_outputs _ _ _ _ Hf) as [-> ->].
  - by destruct (connStep_outputs _ _ _ _ _ _ _ Hs) as [-> ->].
  - by destruct (handlerStep_outputs _ _ _ _ _ Hh) as [-> ->].
  - by destruct (listenerStep_outputs _ _ _ _ _ Hli) as [-> ->].
  - rewrite Hsend in Hu. by destruct ch.
Qed.

Lemma quiet_run_keeps_send s s' d :
  rtc quietStep s s' -> updater s = USend d ->
  updater s' = USend d /\ saved (cl s') = saved (cl s) /\
  guiCh (cl s') = guiCh (cl s).
Proof.
  intros Hrun Hsend. revert s' Hrun. apply rtc_ind_r; [done|].
  intros s1 s2 _ Hq (Hu & Hs & Hg).
  destruct (quietStep_keeps_send _ _ _ Hq Hu) as (-> & -> & ->). done.
Qed.

End PublisherWaits.

Lemma active_connections_bounded_witness :
  client.activeConns (client.cl dialling) = 1 /\
  0 <= client.activeConns (client.cl dialling) <= 1.
Proof.
  assert (Hr : client.reachable 1 1 "nodes.json" (Z.to_nat 1) client.emptyClient dialling).
  { apply (run_steps 1 1 "nodes.json" dialSchedule). vm_compute. reflexivity. }
  destruct (active_connections_bounded 1 1 "nodes.json" client.emptyClient dialling)
    as (_ & _ & Hb); [vm_compute; split; discriminate | reflexivity | exact Hr |].
  split; [reflexivity | exact Hb].
Defined.

(** C1, as the code has it.  A refused dial is counted by the connector
    itself: from the client that is dialling its one known address, once
    [Connect] has returned an error, the next step of connector 0 adds one
    to the dead count, with nothing sent on the result channel and the
    result handler still waiting.  In general a step that changes the dead
    count is always a connector's, never the result handler's; a step that
    changes the good list is always the result handler's. *)
Theorem dead_count_written_by_connector :
  client.reachable 1 1 "nodes.json" 1 client.emptyClient dialFailed /\
  client.step 1 1 "nodes.json" dialFailed (client.Connector 0) dialCounted /\
  client.nodesDeadCnt (client.cl dialCounted)
    = client.nodesDeadCnt (client.cl dialFailed) + 1 /\
  client.nodeResCh (client.cl dialCounted) = [] /\
  client.nodeResCh (client.cl dialFailed) = [] /\
  client.handler dialCounted = client.HSelect /\
  (forall qc L p s a s',
      client.step qc L p s a s' ->
      client.nodesDeadCnt (client.cl s') <> client.nodesDeadCnt (client.cl s) ->
      exists i, a = client.Connector i) /\
  (forall qc L p s a s',
      client.step qc L p s a s' ->
      client.nodesGood (client.cl s') <> client.nodesGood (client.cl s) ->
      a = client.Handler).
Proof.
  split.
  { apply (run_steps 1 1 "nodes.json"
             (dialSchedule ++ [client.EConn 0 client.ChooseOther refused])).
    vm_compute. reflexivity. }
  split.
  { apply (fire_step 1 1 "nodes.json" (client.EConn 0 client.ChooseOther refused)).
    vm_compute. reflexivity. }
  split; [reflexivity|]. split; [reflexivity|]. split; [reflexivity|].
  split; [reflexivity|]. split.
  - intros qc L p. apply dead_count_writer.
  - intros qc L p. apply good_list_writer.
Qed.


Lemma feederStaysBlocked_step s a s' :
  client.step 1 1 "nodes.json" s a s' -> feederStaysBlocked s -> feederStaysBlocked s'.
Proof.
  intros Hstep (Hd & Hf & Hc & Hh & Hl & Hu & Hq & Hn).
  destruct Hstep as [s c' pc' Hfs | s n i Hfe Hqe Hi | s i ch o pc c' pc' Hi Hs
                    | s ch c' pc' Hhs | s ch c' pc' Hls | s ch r c' pc' Hus
                    | s Hdone | s batch | s d Hsend].
  - rewrite Hf in Hfs. simpl in Hfs. rewrite Hq in Hfs. done.
  - rewrite Hq in Hqe. done.
  - rewrite Hc in Hi. destruct i; simpl in Hi; [|done].
    injection Hi as <-. done.
  - rewrite Hh in Hhs. by destruct ch.
  - rewrite Hl in Hls. by destruct ch.
  - rewrite Hu in Hus. by destruct ch.
  - congruence.
  - done.
  - congruence.
Qed.

(** C6, as the code has it.  With one connector and a work queue of
    capacity one, the schedule [shutdownSchedule] leads from a fresh client
    to [blockedFeeder]: the context is cancelled and every other worker has
    returned, but the feeder sits in its send on the full queue, where it has
    no step.  From there on, whatever happens, the feeder never returns, and
    the node it took from the discovery list is neither in that list nor in
    the work queue. *)
Theorem feeder_blocked_after_cancel :
  client.reachable 1 1 "nodes.json" 1 client.emptyClient blockedFeeder /\
  client.ctxDone (client.cl blockedFeeder) = true /\
  client.feederStep 1 (client.cl blockedFeeder) (client.feeder blockedFeeder) = None /\
  (forall s', rtc (client.steps 1 1 "nodes.json") blockedFeeder s' ->
     client.feeder s' = client.FSend (client.newNode "c") /\
     client.feeder s' <> client.FExited /\
     (client.newNode "c" ∉ client.queueCh (client.cl s')) /\
     (client.newNode "c" ∉ client.nodesNew (client.cl s'))).
Proof.
  split.
  { apply (run_steps 1 1 "nodes.json" shutdownSchedule). vm_compute. reflexivity. }
  split; [reflexivity|]. split; [reflexivity|].
  intros s' Hrtc.
  assert (Hinv : feederStaysBlocked s').
  { revert s' Hrtc. apply rtc_ind_r.
    - repeat split.
    - intros s1 s2 _ Hst IH. destruct Hst as [a Hstep].
      by eapply feederStaysBlocked_step. }
  destruct Hinv as (_ & Hf & _ & _ & _ & _ & Hq & Hn).
  rewrite Hf, Hq, Hn. split; [done|]. split; [done|]. split.
  - intros Hin. apply list_elem_of_singleton in Hin. discriminate.
  - apply not_elem_of_nil.
Qed.



(** * Further properties *)

(** ** The chart series *)

Section Charts.
Import gui.
Context {T : Type}.

Lemma copyBack_length (back : list T) : forall i mirror limit,
  length (copyBack back i mirror limit) = length mirror.
Proof.
  induction back as [|e back IH]; intros i mirror limit; simpl; [done|].
  repeat case_match; try done. by rewrite IH, length_insert.
Qed.

(** Walking the list from the back fills the slice from its right end. *)
Lemma copyBack_aligned (back : list T) : forall (k : nat) mirror (n : nat),
  length mirror = n -> (k + length back <= n)%nat ->
  copyBack back (Z.of_nat k) mirror (Z.of_nat n) =
  take (n - k - length back) mirror ++ rev back ++ drop (n - k) mirror.
Proof.
  induction back as [|e back IH]; intros k mirror n Hm Hk; simpl in *.
  - rewrite Nat.sub_0_r. by rewrite take_drop.
  - destruct (Z.leb_spec (Z.of_nat n) (Z.of_nat k)); [lia|].
    destruct (Z.leb_spec (Z.of_nat (length mirror)) (Z.of_nat n - 1 - Z.of_nat k)); [lia|].
    replace (Z.of_nat n - 1 - Z.of_nat k) with (Z.of_nat (n - 1 - k)) by lia.
    rewrite Nat2Z.id.
    replace (Z.of_nat k + 1) with (Z.of_nat (S k)) by lia.
    rewrite IH by (rewrite ?length_insert; lia).
    rewrite take_insert_ge by lia.
    replace (n - S k - length back)%nat with (n - k - S (length back))%nat by lia.
    f_equal. rewrite <- app_assoc. f_equal. simpl.
    replace (n - S k)%nat with (n - 1 - k)%nat by lia.
    rewrite insert_take_drop by lia.
    rewrite drop_app_length' by (rewrite length_take; lia).
    do 2 f_equal. lia.
Qed.

Lemma lastN_all (n : nat) (l : list T) : (length l <= n)%nat -> lastN n l = l.
Proof. intros H. unfold lastN. by assert (length l - n = 0)%nat as -> by lia. Qed.

Lemma lastN_length (n : nat) (l : list T) : length (lastN n l) = (length l `min` n)%nat.
Proof. unfold lastN. rewrite length_drop. lia. Qed.

Lemma lastN_snoc (n : nat) (l : list T) (v : T) :
  lastN n (lastN n l ++ [v]) = lastN n (l ++ [v]).
Proof.
  unfold lastN. rewrite !length_app, length_drop. simpl.
  rewrite !drop_app, drop_drop, length_drop.
  f_equal; f_equal; lia.
Qed.

(** The linked list keeps the newest [n] values. *)
Lemma pushBounded_lastN (n : nat) (l : list T) (v : T) :
  (length l <= n)%nat -> pushBounded l v (Z.of_nat n) = lastN n (l ++ [v]).
Proof.
  intros Hl. unfold pushBounded, lastN. rewrite length_app. simpl.
  destruct (Z.ltb_spec (Z.of_nat n) (Z.of_nat (length l + 1))).
  - assert (length l + 1 - n = 1)%nat as -> by lia. by destruct l.
  - by assert (length l + 1 - n = 0)%nat as -> by lia.
Qed.

End Charts.

Section Series.
Import gui.

Lemma updateDataList_aligned {T : Type} `{Skipped T} (n : nat) (l : list T) (v : T)
    (m : list T) :
  (length l <= n)%nat -> length m = n -> skipped v = false ->
  updateDataList l v m (Z.of_nat n) =
  (lastN n (l ++ [v]), take (n - length (lastN n (l ++ [v]))) m ++ lastN n (l ++ [v])).
Proof.
  intros Hl Hm Hs. unfold updateDataList. rewrite Hs, pushBounded_lastN by done.
  f_equal. change 0 with (Z.of_nat 0).
  assert (length (lastN n (l ++ [v])) <= n)%nat by (rewrite lastN_length; lia).
  rewrite copyBack_aligned by (rewrite ?length_rev; simpl; lia).
  rewrite rev_involutive, length_rev, !Nat.sub_0_r.
  by rewrite (drop_ge m n), app_nil_r by lia.
Qed.

Lemma rightAligned_length {T : Type} (zero : T) n l :
  (length l <= n)%nat -> length (rightAligned zero n l) = n.
Proof. intros H. unfold rightAligned. rewrite length_app, length_replicate. lia. Qed.

Lemma rightAligned_take {T : Type} (zero : T) n l k :
  (length l <= n)%nat -> (k <= n - length l)%nat ->
  take k (rightAligned zero n l) = replicate k zero.
Proof.
  intros Hl Hk. unfold rightAligned.
  rewrite take_app_le by (rewrite length_replicate; lia).
  rewrite take_replicate. f_equal. lia.
Qed.

(** One more value for a list and slice that show the values so far. *)
Lemma updateDataList_shown {T : Type} `{Skipped T} (zero : T) (n : nat)
    (kept : list T) (v : T) :
  skipped v = false ->
  updateDataList (lastN n kept) v (rightAligned zero n (lastN n kept)) (Z.of_nat n) =
  (lastN n (kept ++ [v]), rightAligned zero n (lastN n (kept ++ [v]))).
Proof.
  intros Hs.
  assert (Hk : (length (lastN n kept) <= n)%nat) by (rewrite lastN_length; lia).
  rewrite updateDataList_aligned; [|done|by apply rightAligned_length|done].
  rewrite lastN_snoc. f_equal.
  rewrite rightAligned_take; [done|done|].
  rewrite !lastN_length, length_app. simpl. lia.
Qed.

Lemma positives_snoc xs x :
  positives (xs ++ [x]) = if 0 <? x then positives xs ++ [x] else positives xs.
Proof.
  unfold positives. rewrite filter_app, filter_cons, filter_nil.
  destruct (Z.ltb_spec 0 x); case_decide; try lia; [done | by rewrite app_nil_r].
Qed.

Lemma stepSeries_chartOf (n : nat) (xs : list Z) (x : Z) :
  stepSeries (Z.of_nat n) x (chartOf n xs) = chartOf n (xs ++ [x]).
Proof.
  unfold stepSeries, chartOf. rewrite positives_snoc.
  destruct (Z.ltb_spec 0 x) as [Hx|Hx]; [|done]. simpl.
  rewrite updateDataList_shown by (by apply float64OfInt_not_skipped).
  by rewrite map_app, last_snoc.
Qed.

Lemma foldl_stepSeries (n : nat) (xs : list Z) : forall ys,
  foldl (fun v x => stepSeries (Z.of_nat n) x v) (chartOf n ys) xs = chartOf n (ys ++ xs).
Proof.
  induction xs as [|x xs IH]; intros ys; simpl; [by rewrite app_nil_r|].
  rewrite stepSeries_chartOf, IH. by rewrite <- app_assoc.
Qed.

End Series.

Section Calls.
Import gui.

Ltac frame_block f :=
  unfold f; simpl; destruct (0 <? _); [try destruct (updateDataList _ _ _ _) | ];
  reflexivity.

(** [Update] never touches the log lines or the connection limit. *)
Lemma Update_logs d g :
  logsList (Update d g) = logsList g /\ logs (Update d g) = logs g /\
  maxConnections (Update d g) = maxConnections g.
Proof.
  assert (H1 : forall d g, (logsList (updConnections d g), logs (updConnections d g),
                            maxConnections (updConnections d g))
                           = (logsList g, logs g, maxConnections g))
    by (intros; frame_block updConnections).
  assert (H2 : forall d g, (logsList (updNodesTotal d g), logs (updNodesTotal d g),
                            maxConnections (updNodesTotal d g))
                           = (logsList g, logs g, maxConnections g))
    by (intros; frame_block updNodesTotal).
  assert (H3 : forall d g, (logsList (updNodesQueued d g), logs (updNodesQueued d g),
                            maxConnections (updNodesQueued d g))
                           = (logsList g, logs g, maxConnections g))
    by (intros; frame_block updNodesQueued).
  assert (H4 : forall d g, (logsList (updNodesGood d g), logs (updNodesGood d g),
                            maxConnections (updNodesGood d g))
                           = (logsList g, logs g, maxConnections g))
    by (intros; frame_block updNodesGood).
  assert (H5 : forall d g, (logsList (updNodesDead d g), logs (updNodesDead d g),
                            maxConnections (updNodesDead d g))
                           = (logsList g, logs g, maxConnections g))
    by (intros; frame_block updNodesDead).
  assert (H6 : forall d g, (logsList (updMsgIn d g), logs (updMsgIn d g),
                            maxConnections (updMsgIn d g))
                           = (logsList g, logs g, maxConnections g))
    by (intros; frame_block updMsgIn).
  assert (H7 : forall d g, (logsList (updMsgOut d g), logs (updMsgOut d g),
                            maxConnections (updMsgOut d g))
                           = (logsList g, logs g, maxConnections g))
    by (intros; frame_block updMsgOut).
  assert (H : (logsList (Update d g), logs (Update d g), maxConnections (Update d g))
              = (logsList g, logs g, maxConnections g)).
  { unfold Update. by rewrite H7, H6, H5, H4, H3, H2, H1. }
  split; [exact (f_equal (fun x => x.1.1) H)|].
  split; [exact (f_equal (fun x => x.1.2) H) | exact (f_equal (fun x => x.2) H)].
Qed.

(** [Log] touches nothing but the log lines. *)
Lemma Log_stored line g :
  stored (Log line g) = stored g /\ maxConnections (Log line g) = maxConnections g.
Proof. unfold Log. by destruct (updateDataList _ _ _ _). Qed.

Lemma Log_logs line g :
  (logsList (Log line g), logs (Log line g))
  = updateDataList (logsList g) line (logs g) lenLogs.
Proof. unfold Log. by destruct (updateDataList _ _ _ _). Qed.

(** A part of the state that only [Update] writes, over a sequence of
    calls. *)
Lemma view_of_updates {V : Type} (view : GUI -> V) (f : IncomingData -> V -> V) calls :
  (forall d g, view (Update d g) = f d (view g)) ->
  (forall line g, view (Log line g) = view g) ->
  forall g, view (foldl perform g calls)
            = foldl (fun v d => f d v) (view g) (updatesOf calls).
Proof.
  intros Hu Hl. unfold updatesOf.
  induction calls as [|[d|line] calls IH]; intros g; simpl; [done| |].
  - by rewrite IH, Hu.
  - by rewrite IH, Hl.
Qed.

Lemma view_of_lines {V : Type} (view : GUI -> V) (f : string -> V -> V) calls :
  (forall d g, view (Update d g) = view g) ->
  (forall line g, view (Log line g) = f line (view g)) ->
  forall g, view (foldl perform g calls)
            = foldl (fun v line => f line v) (view g) (linesOf calls).
Proof.
  intros Hu Hl. unfold linesOf.
  induction calls as [|[d|line] calls IH]; intros g; simpl; [done| |].
  - by rewrite IH, Hu.
  - by rewrite IH, Hl.
Qed.

Lemma foldl_over_map {A B C : Type} (f : A -> C -> A) (h : B -> C) (l : list B) : forall a,
  foldl (fun a b => f a (h b)) a l = foldl f a (map h l).
Proof. induction l as [|b l IH]; intros a; simpl; [done | apply IH]. Qed.

Lemma stepInfo_last xs : forall i,
  foldl (fun i x => stepInfo x i) i xs = default i (last (positives xs)).
Proof.
  induction xs as [|x xs IH] using rev_ind; intros i; [done|].
  rewrite foldl_app, positives_snoc. simpl. rewrite IH. unfold stepInfo.
  destruct (0 <? x); [by rewrite last_snoc | done].
Qed.

Lemma stored_Update d g :
  connectionsSeries (Update d g)
    = stepSeries lenConnChart (Connections d) (connectionsSeries g) /\
  dataNodesTotal (Update d g) = stepTotal (NodesTotal d) (dataNodesTotal g) /\
  nodesQueuedSeries (Update d g)
    = stepSeries lenNodesChart (NodesQueued d) (nodesQueuedSeries g) /\
  nodesGoodSeries (Update d g)
    = stepSeries lenNodesChart (NodesGood d) (nodesGoodSeries g) /\
  nodesDeadSeries (Update d g)
    = stepSeries lenNodesChart (NodesDead d) (nodesDeadSeries g) /\
  infoMsgIn (Update d g) = stepInfo (MsgIn d) (infoMsgIn g) /\
  infoMsgOut (Update d g) = stepInfo (MsgOut d) (infoMsgOut g).
Proof. apply stored_eq, Update_stored. Qed.

Lemma stored_Log line g :
  connectionsSeries (Log line g) = connectionsSeries g /\
  dataNodesTotal (Log line g) = dataNodesTotal g /\
  nodesQueuedSeries (Log line g) = nodesQueuedSeries g /\
  nodesGoodSeries (Log line g) = nodesGoodSeries g /\
  nodesDeadSeries (Log line g) = nodesDeadSeries g /\
  infoMsgIn (Log line g) = infoMsgIn g /\
  infoMsgOut (Log line g) = infoMsgOut g.
Proof. apply stored_eq, Log_stored. Qed.

(** X1.  After any sequence of [Update] and [Log] calls on a fresh
    dashboard, each of the four counters with a chart (connections, queued,
    good, dead) shows the positive values passed for it and nothing else:
    its info field is the last positive value (0 when there was none), its
    linked list holds the newest 14 (connections) or 32 of them, oldest
    first, and its chart slice holds these at its right end with zeros to
    their left.  The message counters are the last positive value passed,
    and the connection limit is the one given to [New]. *)
Theorem dashboard_counters_after_calls (limit : Z) (calls : list call) :
  let g := foldl perform (New limit) calls in
  let ds := updatesOf calls in
  connectionsSeries g = chartOf 14 (map Connections ds) /\
  nodesQueuedSeries g = chartOf 32 (map NodesQueued ds) /\
  nodesGoodSeries g = chartOf 32 (map NodesGood ds) /\
  nodesDeadSeries g = chartOf 32 (map NodesDead ds) /\
  infoMsgIn g = default 0 (last (positives (map MsgIn ds))) /\
  infoMsgOut g = default 0 (last (positives (map MsgOut ds))) /\
  maxConnections g = limit.
Proof.
  intros g ds. subst g ds.
  split.
  { rewrite (view_of_updates connectionsSeries
               (fun d => stepSeries lenConnChart (Connections d)));
      [|intros; apply stored_Update|intros; apply stored_Log].
    rewrite (foldl_over_map (fun v x => stepSeries lenConnChart x v) Connections).
    exact (foldl_stepSeries 14 _ []). }
  split.
  { rewrite (view_of_updates nodesQueuedSeries
               (fun d => stepSeries lenNodesChart (NodesQueued d)));
      [|intros; apply stored_Update|intros; apply stored_Log].
    rewrite (foldl_over_map (fun v x => stepSeries lenNodesChart x v) NodesQueued).
    exact (foldl_stepSeries 32 _ []). }
  split.
  { rewrite (view_of_updates nodesGoodSeries
               (fun d => stepSeries lenNodesChart (NodesGood d)));
      [|intros; apply stored_Update|intros; apply stored_Log].
    rewrite (foldl_over_map (fun v x => stepSeries lenNodesChart x v) NodesGood).
    exact (foldl_stepSeries 32 _ []). }
  split.
  { rewrite (view_of_updates nodesDeadSeries
               (fun d => stepSeries lenNodesChart (NodesDead d)));
      [|intros; apply stored_Update|intros; apply stored_Log].
    rewrite (foldl_over_map (fun v x => stepSeries lenNodesChart x v) NodesDead).
    exact (foldl_stepSeries 32 _ []). }
  split.
  { rewrite (view_of_updates infoMsgIn (fun d => stepInfo (MsgIn d)));
      [|intros; apply stored_Update|intros; apply stored_Log].
    rewrite (foldl_over_map (fun v x => stepInfo x v) MsgIn). apply stepInfo_last. }
  split.
  { rewrite (view_of_updates infoMsgOut (fun d => stepInfo (MsgOut d)));
      [|intros; apply stored_Update|intros; apply stored_Log].
    rewrite (foldl_over_map (fun v x => stepInfo x v) MsgOut). apply stepInfo_last. }
  rewrite (view_of_updates maxConnections (fun _ v => v));
    [|intros; apply Update_logs|intros; apply Log_stored].
  by induction (updatesOf calls).
Qed.

End Calls.

Section LogsAndTotal.
Import gui.

Lemma pushBounded_shown {T : Type} (zero : T) (n : nat) (kept : list T) (v : T) :
  pushBounded (lastN n kept) v (Z.of_nat n) = lastN n (kept ++ [v]) /\
  copyBack (rev (lastN n (kept ++ [v]))) 0 (rightAligned zero n (lastN n kept)) (Z.of_nat n)
  = rightAligned zero n (lastN n (kept ++ [v])).
Proof.
  assert (Hk : (length (lastN n kept) <= n)%nat) by (rewrite lastN_length; lia).
  assert (Hk' : (length (lastN n (kept ++ [v])) <= n)%nat) by (rewrite lastN_length; lia).
  split; [by rewrite pushBounded_lastN, lastN_snoc|].
  change 0 with (Z.of_nat 0).
  rewrite copyBack_aligned;
    [|by apply rightAligned_length|rewrite length_rev; simpl; lia].
  rewrite rev_involutive, length_rev, !Nat.sub_0_r.
  rewrite (drop_ge _ n), app_nil_r by (rewrite rightAligned_length; lia).
  rewrite rightAligned_take; [done|done|].
  rewrite !lastN_length, length_app. simpl. lia.
Qed.

Lemma lastN_map {A B : Type} (f : A -> B) n l : lastN n (map f l) = map f (lastN n l).
Proof. unfold lastN. by rewrite length_map, skipn_map. Qed.

Lemma last_lastN {T : Type} (n : nat) (l : list T) : (0 < n)%nat -> last (lastN n l) = last l.
Proof.
  intros Hn. unfold lastN. rewrite !last_lookup, length_drop, lookup_drop.
  destruct (decide (length l = 0)%nat) as [H0|H0].
  - rewrite H0. simpl. by destruct l.
  - f_equal. lia.
Qed.

(** The copy loop of [AddFloat] on a queue with no [nil] box left. *)
Lemma flatten_full xs : forall i flat,
  (i + length xs = length flat)%nat ->
  flatten (map Some xs) i flat = take i flat ++ xs.
Proof.
  induction xs as [|x xs IH]; intros i flat Hlen; simpl in *.
  - rewrite take_ge by lia. by rewrite app_nil_r.
  - rewrite IH by (rewrite length_insert; lia).
    rewrite (take_S_r _ _ x) by (apply list_lookup_insert_eq; lia).
    rewrite take_insert_ge by lia. by rewrite <- app_assoc.
Qed.

Lemma NewQueue_queueAfter n : NewQueue (Z.of_nat n) = queueAfter n [].
Proof.
  unfold NewQueue, queueAfter, rightAligned, lastN. simpl.
  by rewrite Nat2Z.id, Nat.sub_0_r, app_nil_r.
Qed.

Lemma AddFloat_queueAfter n vs v :
  AddFloat v (queueAfter n vs) = queueAfter n (vs ++ [v]).
Proof.
  destruct (pushBounded_shown None n (map Some vs) (Some v)) as [Hpush Hcopy].
  unfold AddFloat, add, queueAfter. cbn [qlist size data dataFlatFloat].
  unfold queueData, float64 in *.
  rewrite Hpush, Hcopy.
  assert (map Some vs ++ [Some v] = map Some (vs ++ [v])) as -> by (by rewrite map_app).
  f_equal.
  assert (Hflat : length (match
                            match vs with
                            | [] => None
                            | _ => Some (if (length vs <? n)%nat then replicate n 0
                                         else lastN n vs)
                            end
                          with
                          | Some f => f
                          | None => replicate (Z.to_nat (Z.of_nat n)) 0
                          end) = n).
  { destruct vs as [|v0 vs']; [by rewrite length_replicate, Nat2Z.id|].
    destruct (Nat.ltb_spec (length (v0 :: vs')) n).
    - by rewrite length_replicate.
    - rewrite lastN_length. lia. }
  assert (Hsnoc : match vs ++ [v] with
                  | [] => None
                  | _ => Some (if (length (vs ++ [v]) <? n)%nat then replicate n 0
                               else lastN n (vs ++ [v]))
                  end = Some (if (length (vs ++ [v]) <? n)%nat then replicate n 0
                              else lastN n (vs ++ [v]))).
  { by destruct vs. }
  rewrite Hsnoc. f_equal.
  destruct (Nat.ltb_spec (length (vs ++ [v])) n) as [Hlt|Hge].
  - (* a [nil] box is left at the front: nothing is copied *)
    rewrite length_app in Hlt. simpl in Hlt.
    unfold rightAligned. rewrite lastN_length, length_map, length_app. simpl.
    destruct (n - (length vs + 1) `min` n)%nat as [|k] eqn:Ek; [lia|]. simpl.
    destruct vs as [|v0 vs']; simpl; [by rewrite Nat2Z.id|].
    destruct (Nat.ltb_spec (S (length vs')) n); [done | simpl in *; lia].
  - (* the queue is full *)
    rewrite lastN_map. unfold rightAligned.
    rewrite length_map, lastN_length.
    assert ((n - length (vs ++ [v]) `min` n) = 0)%nat as -> by lia. simpl.
    rewrite flatten_full; [done|].
    rewrite lastN_length. unfold float64.
    transitivity n; [lia | symmetry; exact Hflat].
Qed.

Lemma foldl_AddFloat n vs : forall ws,
  foldl (fun q v => AddFloat v q) (queueAfter n ws) vs = queueAfter n (ws ++ vs).
Proof.
  induction vs as [|v vs IH]; intros ws; simpl; [by rewrite app_nil_r|].
  by rewrite AddFloat_queueAfter, IH, <- app_assoc.
Qed.

Lemma foldl_stepTotal n xs : forall ys,
  foldl (fun q x => stepTotal x q) (queueAfter n (map float64OfInt (positives ys))) xs
  = queueAfter n (map float64OfInt (positives (ys ++ xs))).
Proof.
  induction xs as [|x xs IH]; intros ys; simpl; [by rewrite app_nil_r|].
  replace (ys ++ x :: xs) with ((ys ++ [x]) ++ xs) by (by rewrite <- app_assoc).
  rewrite <- IH. f_equal. rewrite positives_snoc. unfold stepTotal.
  destruct (0 <? x); [|done]. by rewrite AddFloat_queueAfter, map_app.
Qed.

Lemma map_replicate_const {A B : Type} (f : A -> B) k x :
  map f (replicate k x) = replicate k (f x).
Proof. induction k as [|k IH]; simpl; [done | by rewrite IH]. Qed.

Lemma totalDataF_queueAfter n vs :
  totalDataF (queueAfter n vs) = rightAligned 0 n (lastN n vs).
Proof.
  unfold totalDataF, getData, queueAfter, rightAligned.
  cbn [qlist size data dataFlatFloat].
  rewrite map_app, map_replicate_const, lastN_map, length_map, map_map. simpl.
  by rewrite map_id.
Qed.

End LogsAndTotal.

Section DashboardAfterCalls.
Import gui.

Lemma foldl_updateDataList {T : Type} `{Skipped T} (zero : T) (n : nat) (vs : list T) :
  forall kept,
    foldl (fun st v => updateDataList st.1 v st.2 (Z.of_nat n))
          (lastN n kept, rightAligned zero n (lastN n kept)) vs
    = (lastN n (kept ++ filter (fun v => skipped v = false) vs),
       rightAligned zero n (lastN n (kept ++ filter (fun v => skipped v = false) vs))).
Proof.
  induction vs as [|v vs IH]; intros kept; simpl.
  - by rewrite filter_nil, app_nil_r.
  - destruct (skipped v) eqn:Hs.
    + rewrite filter_cons_False by congruence.
      unfold updateDataList at 2. rewrite Hs. apply IH.
    + rewrite filter_cons_True by done.
      rewrite updateDataList_shown by done. rewrite IH. by rewrite <- app_assoc.
Qed.

Lemma float64OfInt_small x : 0 <= x < 2 ^ 53 -> float64OfInt x = x.
Proof.
  intros Hx. unfold float64OfInt, float64OfNonneg.
  destruct (Z.ltb_spec x 0); [lia|]. by destruct (Z.ltb_spec x (2 ^ 53)); [|lia].
Qed.

Lemma dataNodesTotal_after_calls limit calls :
  dataNodesTotal (foldl perform (New limit) calls)
  = queueAfter 32 (map float64OfInt (positives (map NodesTotal (updatesOf calls)))).
Proof.
  rewrite (view_of_updates dataNodesTotal (fun d => stepTotal (NodesTotal d)));
    [|intros; apply stored_Update|intros; apply stored_Log].
  rewrite (foldl_over_map (fun q x => stepTotal x q) NodesTotal).
  exact (foldl_stepTotal 32 _ []).
Qed.

(** X2.  A queue made by [NewQueue(n)] and fed by [AddFloat] keeps the
    newest [n] values: its linked list holds them, its [data] slice always
    has [n] boxes with the values at the right end and [nil] boxes to their
    left, and the flat slice, made on the first call, stays all zero until
    [n] values have been added and equals the newest [n] values from then
    on. *)
Theorem queue_after_adds (n : nat) (vs : list float64) :
  let q := foldl (fun q v => AddFloat v q) (NewQueue (Z.of_nat n)) vs in
  q = queueAfter n vs /\
  totalDataF q = rightAligned 0 n (lastN n vs) /\
  length (getData q) = n.
Proof.
  intros q. subst q. rewrite NewQueue_queueAfter.
  rewrite (foldl_AddFloat n vs []). simpl.
  split; [done|]. split; [apply totalDataF_queueAfter|].
  unfold getData, queueAfter. cbn [data].
  apply rightAligned_length. rewrite lastN_length. lia.
Qed.

Lemma queueAfter_flat n vs :
  vs <> [] ->
  dataFlatFloat (queueAfter n vs)
  = Some (if (length vs <? n)%nat then replicate n 0 else lastN n vs).
Proof. by destruct vs. Qed.

Lemma GetLastNum_queueAfter beyondInt n vs :
  (0 < n)%nat ->
  GetLastNum beyondInt (queueAfter n vs) =
  if (length vs <? n)%nat then 0
  else match last vs with Some f => intOfFloat64 beyondInt f | None => 0 end.
Proof.
  intros Hn. unfold GetLastNum.
  destruct vs as [|v vs'] eqn:E.
  - cbn [queueAfter dataFlatFloat]. by destruct (Nat.ltb_spec (length (@nil float64)) n).
  - rewrite <- E. rewrite queueAfter_flat by (by rewrite E).
    destruct (Nat.ltb_spec (length vs) n).
    + destruct n as [|n']; [lia|].
      assert (Hl : forall k, last (replicate (S k) (0 : Z)) = Some 0).
      { intros k. replace (S k) with (k + 1)%nat by lia.
        rewrite replicate_add. simpl. apply last_snoc. }
      unfold float64. by rewrite Hl.
    + by rewrite last_lastN by lia.
Qed.

(** X3.  For the total-nodes queue of a fresh dashboard after any calls:
    the series drawn by [Start] shows the positive totals passed so far at
    its right end, but [GetLastNum], which titles the chart and fills the
    "Total nodes" row, is 0 until 32 positive totals have been passed; from
    then on it is the last positive total (for a total below [2^53]). *)
Theorem total_number_lags_chart (beyondInt : float64 -> Z) (limit : Z)
    (calls : list call) :
  let q := dataNodesTotal (foldl perform (New limit) calls) in
  let ts := positives (map NodesTotal (updatesOf calls)) in
  totalDataF q = rightAligned 0 32 (lastN 32 (map float64OfInt ts)) /\
  ((length ts < 32)%nat -> GetLastNum beyondInt q = 0) /\
  (forall x, (32 <= length ts)%nat -> last ts = Some x -> x < 2 ^ 53 ->
             GetLastNum beyondInt q = x).
Proof.
  intros q ts. subst q. rewrite dataNodesTotal_after_calls. fold ts.
  split; [apply totalDataF_queueAfter|].
  rewrite GetLastNum_queueAfter by lia. rewrite length_map. split.
  - intros Hlt. by destruct (Nat.ltb_spec (length ts) 32); [|lia].
  - intros x Hge Hlast Hx.
    assert (Hpos : 0 < x).
    { apply last_Some_elem_of in Hlast. unfold ts, positives in Hlast.
      by apply list_elem_of_filter in Hlast as [? _]. }
    destruct (Nat.ltb_spec (length ts) 32); [lia|].
    apply last_Some in Hlast as [ts0 ->]. rewrite map_app. simpl.
    rewrite last_snoc, float64OfInt_small by lia.
    unfold intOfFloat64.
    destruct (Z.leb_spec (minOf t_int) x) as [_|Hc];
      [|assert (minOf t_int = -9223372036854775808) by reflexivity; lia].
    destruct (Z.leb_spec x (maxOf t_int)) as [_|Hc];
      [done|assert (maxOf t_int = 9223372036854775807) by reflexivity; lia].
Qed.

(** X4.  After any sequence of [Update] and [Log] calls on a fresh
    dashboard, the log list holds the newest 20 non-empty lines passed to
    [Log], oldest first, and the log slice holds them at its right end with
    empty strings to their left; an empty line is dropped. *)
Theorem log_lines_after_calls (limit : Z) (calls : list call) :
  let g := foldl perform (New limit) calls in
  let kept := filter (fun line => line <> "") (linesOf calls) in
  logsList g = lastN 20 kept /\
  logs g = rightAligned "" 20 (lastN 20 kept).
Proof.
  intros g kept. subst g.
  pose proof (view_of_lines (fun g => (logsList g, logs g))
                (fun line v => updateDataList v.1 line v.2 lenLogs) calls) as Hv.
  assert (Hfold : (logsList (foldl perform (New limit) calls),
                   logs (foldl perform (New limit) calls))
                  = (lastN 20 kept, rightAligned "" 20 (lastN 20 kept))).
  { rewrite Hv.
    - assert (Hk : kept = filter (fun v => skipped v = false) (linesOf calls)).
      { unfold kept. apply list_filter_iff. intros line.
        unfold skipped, skipped_string. by rewrite bool_decide_eq_false. }
      rewrite Hk. exact (foldl_updateDataList "" 20 (linesOf calls) []).
    - intros d g0. destruct (Update_logs d g0) as (-> & -> & _). done.
    - intros line g0. apply Log_logs. }
  split; [exact (f_equal fst Hfold) | exact (f_equal snd Hfold)].
Qed.

End DashboardAfterCalls.

Section DispatcherRuns.
Import wire listner.
Variable T : intType.

Lemma onRead_effect r w :
  isEOF r = false ->
  node (snd (onRead T r w)) = foldl (ponged T) (node w) (pongs [r]) /\
  newNodesCh (snd (onRead T r w)) = newNodesCh w ++ announced [r].
Proof.
  intros Hr.
  destruct r as [cnt m raw | cnt [] ]; simpl in *; try done;
    try (by rewrite app_nil_r).
  destruct m; simpl; try (by rewrite app_nil_r); try done.
  unfold onPong, ponged. simpl. rewrite app_nil_r.
  by destruct (Nonce =? PingNonce (node w)).
Qed.

Lemma pongs_cons r script :
  isEOF r = false -> pongs (r :: script) = pongs [r] ++ pongs script.
Proof.
  destruct r as [cnt m raw | cnt [] ]; simpl; try done. by destruct m.
Qed.

Lemma announced_cons r script :
  isEOF r = false -> announced (r :: script) = announced [r] ++ announced script.
Proof.
  destruct r as [cnt m raw | cnt [] ]; simpl; try done. by destruct (batchOf m).
Qed.

Lemma isEOF_true r : isEOF r = true -> exists cnt, r = ReadErr cnt EOF.
Proof. destruct r as [cnt m raw | cnt [] ]; simpl; try done. eauto. Qed.

(** What a run leaves behind depends on the address messages and the pongs
    read before the first end-of-stream, and on nothing else. *)
Lemma connListenFrom_summary script : forall d w,
  Conn (node w) <> None ->
  let w' := worldOf (connListenFrom T d script w) in
  newNodesCh w' = newNodesCh w ++ announced script /\
  PingNonce (node w') = PingNonce (foldl (ponged T) (node w) (pongs script)) /\
  PingCount (node w') = PingCount (foldl (ponged T) (node w) (pongs script)) /\
  endpoint (node w') = endpoint (node w) /\
  state (node w') = state (node w).
Proof.
  induction script as [|r script IH]; intros d w Hc; cbn [connListenFrom].
  - destruct (Conn (node w)) eqn:E; [|done]. simpl. by rewrite app_nil_r.
  - destruct (Conn (node w)) eqn:E; [|done].
    destruct (isEOF r) eqn:Hr.
    + apply isEOF_true in Hr as [cnt ->]. simpl. by rewrite app_nil_r.
    + destruct (onRead_not_EOF T r (println w) Hr) as [Hctl Hconn].
      destruct (onRead_effect r (println w) Hr) as [Hnode Hch].
      destruct (onRead T r (println w)) as [ctl w1] eqn:E1.
      simpl in Hctl, Hconn, Hnode, Hch. subst ctl. cbv beta iota.
      destruct (IH (S d) w1) as (H1 & H2 & H3 & H4 & H5); [congruence|].
      rewrite (pongs_cons r script Hr), (announced_cons r script Hr), foldl_app.
      rewrite H1, H2, H3, H4, H5, Hch, Hnode, <- app_assoc.
      repeat split.
      * clear. destruct r as [cnt m raw | cnt [] ]; try done.
        destruct m; try done. simpl. unfold ponged. by destruct (_ =? _).
      * clear. destruct r as [cnt m raw | cnt [] ]; try done.
        destruct m; try done. simpl. unfold ponged. by destruct (_ =? _).
Qed.

(** Why a run has returned. *)
Lemma connListenFrom_returned script : forall d w k w',
  connListenFrom T d script w = Returned k w' ->
  Conn (node w') = None /\ last (logs w') = Some closedEntry /\
  ((Conn (node w) = None /\ k = d /\ w' = deferred w) \/
   (Conn (node w) <> None /\ (d < k)%nat /\
    (exists cnt, script !! (k - d - 1)%nat = Some (ReadErr cnt EOF)) /\
    Forall (fun r => isEOF r = false) (take (k - d - 1) script))).
Proof.
  induction script as [|r script IH]; intros d w k w' H; simpl in H.
  - destruct (Conn (node w)) eqn:E; [done|]. injection H as <- <-.
    split; [done|]. split; [apply last_snoc|]. by left.
  - destruct (Conn (node w)) eqn:E.
    2:{ injection H as <- <-. split; [done|]. split; [apply last_snoc|]. by left. }
    destruct (isEOF r) eqn:Hr.
    + apply isEOF_true in Hr as [cnt ->]. simpl in H. injection H as <- <-.
      split; [done|]. split; [apply last_snoc|]. right.
      split; [done|]. split; [lia|].
      replace (S d - d - 1)%nat with 0%nat by lia. simpl. split; [eauto | constructor].
    + destruct (onRead_not_EOF T r (println w) Hr) as [Hctl Hconn].
      destruct (onRead T r (println w)) as [ctl w1] eqn:E1. simpl in *. subst ctl.
      destruct (IH _ _ _ _ H) as (H1 & H2 & [(Hn & _) | (_ & Hlt & (cnt & Hk) & Hall)]);
        [congruence|].
      split; [done|]. split; [done|]. right.
      split; [done|]. split; [lia|].
      replace (k - d - 1)%nat with (S (k - S d - 1)) by lia. simpl.
      split; [eauto | by constructor].
Qed.

End DispatcherRuns.

Section DispatcherTheorems.
Import wire listner.
Variable T : intType.

Lemma pongs_replicate k cnt nonce raw :
  pongs (replicate k (ReadOk cnt (MsgPong nonce) raw)) = replicate k nonce.
Proof. induction k as [|k IH]; simpl; [done | by rewrite IH]. Qed.

Lemma ponged_mismatch n nonce : nonce <> PingNonce n -> ponged T n nonce = n.
Proof. intros H. unfold ponged. by destruct (Z.eqb_spec nonce (PingNonce n)). Qed.

Lemma ponged_zero k : forall n,
  0 < it_bits T -> PingNonce n = 0 -> inRange T (PingCount n) ->
  PingCount n + Z.of_nat k <= maxOf T ->
  PingNonce (foldl (ponged T) n (replicate k 0)) = 0 /\
  PingCount (foldl (ponged T) n (replicate k 0)) = PingCount n + Z.of_nat k.
Proof.
  induction k as [|k IH]; intros n Hb Hn Hr Hk; simpl.
  - split; [done | lia].
  - unfold ponged at 2 4. rewrite Hn. simpl.
    assert (Hw : wrap T (PingCount n + 1) = PingCount n + 1).
    { apply wrap_succ; [done | done | lia]. }
    destruct (IH {| endpoint := endpoint n; state := state n; Conn := Conn n;
                    PingNonce := 0; PingCount := wrap T (PingCount n + 1) |})
      as [H1 H2]; cbn [PingCount PingNonce]; try done.
    + rewrite Hw. unfold inRange in *. lia.
    + rewrite Hw. lia.
    + split; [done|]. cbn [PingCount] in H2. rewrite H2, Hw. lia.
Qed.

Lemma ponged_replay k : forall n nonce,
  nonce <> 0 -> nonce = PingNonce n ->
  PingNonce (foldl (ponged T) n (replicate (S k) nonce)) = 0 /\
  PingCount (foldl (ponged T) n (replicate (S k) nonce)) = wrap T (PingCount n + 1).
Proof.
  intros n nonce H0 Hn. simpl. unfold ponged at 2 4. rewrite <- Hn, Z.eqb_refl.
  set (n1 := {| endpoint := endpoint n; state := state n; Conn := Conn n;
                PingNonce := 0; PingCount := wrap T (PingCount n + 1) |}).
  assert (H : foldl (ponged T) n1 (replicate k nonce) = n1).
  { induction k as [|k IH]; simpl; [done|].
    by rewrite ponged_mismatch by (simpl; done). }
  by rewrite H.
Qed.

(** X6.  For a dispatcher that holds a connection, run against any script
    of reads: the batches sent on the discovery channel are exactly those of
    the addr and addrv2 messages read before the first end-of-stream, in
    order; the ping nonce and ping count at the end are those obtained by
    applying the pongs read before the first end-of-stream, in order; the
    endpoint and state of the node never change.  Every other message, every
    other error and everything after the end of the stream leaves them
    alone. *)
Theorem dispatcher_run_summary (script : list ReadResult) (w : World)
    (Hconn : Conn (node w) <> None) :
  let w' := worldOf (connListen T script w) in
  newNodesCh w' = newNodesCh w ++ announced script /\
  PingNonce (node w') = PingNonce (foldl (ponged T) (node w) (pongs script)) /\
  PingCount (node w') = PingCount (foldl (ponged T) (node w) (pongs script)) /\
  endpoint (node w') = endpoint (node w) /\
  state (node w') = state (node w).
Proof. exact (connListenFrom_summary T script 0%nat w Hconn). Qed.

(** X7.  Whenever [connListen] has returned, the node's connection is nil
    and the last log entry is the "closed" warning; and it has returned
    either at once, without a read, because the node had no connection, or
    right after the read that met end-of-stream, every earlier read having
    been something else. *)
Theorem dispatcher_returns_on_eof_or_no_conn (script : list ReadResult) (w : World)
    (k : nat) (w' : World)
    (Hret : connListen T script w = Returned k w') :
  Conn (node w') = None /\
  last (logs w') = Some closedEntry /\
  ((Conn (node w) = None /\ k = 0%nat /\ w' = deferred w) \/
   (Conn (node w) <> None /\ (0 < k)%nat /\
    (exists cnt, script !! (k - 1)%nat = Some (ReadErr cnt EOF)) /\
    Forall (fun r => isEOF r = false) (take (k - 1) script))).
Proof.
  destruct (connListenFrom_returned T script 0%nat w k w' Hret) as (H1 & H2 & H3).
  split; [done|]. split; [done|].
  destruct H3 as [(? & ? & ?) | (? & ? & Hk & Hall)]; [by left|right].
  rewrite Nat.sub_0_r in Hk, Hall. done.
Qed.

(** X8.  A pong that answers the outstanding ping (nonce not 0) is counted
    once however often the peer repeats it.  But when no ping is
    outstanding ([PingNonce] is 0), every pong with nonce 0 is taken for an
    answer: [k] of them add [k] to [PingCount] (as long as the count stays
    within its type). *)
Theorem pong_counted_once_unless_zero (k : nat) (cnt nonce : Z) (raw : list Z)
    (w : World)
    (Hbits : 0 < it_bits T)
    (Hconn : Conn (node w) <> None) :
  (nonce <> 0 -> nonce = PingNonce (node w) ->
     let w' := worldOf (connListen T (replicate (S k) (ReadOk cnt (MsgPong nonce) raw)) w) in
     PingCount (node w') = wrap T (PingCount (node w) + 1) /\
     PingNonce (node w') = 0) /\
  (PingNonce (node w) = 0 -> inRange T (PingCount (node w)) ->
     PingCount (node w) + Z.of_nat k <= maxOf T ->
     let w' := worldOf (connListen T (replicate k (ReadOk cnt (MsgPong 0) raw)) w) in
     PingCount (node w') = PingCount (node w) + Z.of_nat k /\
     PingNonce (node w') = 0).
Proof.
  split.
  - intros H0 Hn w'. subst w'.
    destruct (connListenFrom_summary T
                (replicate (S k) (ReadOk cnt (MsgPong nonce) raw)) 0%nat w Hconn)
      as (_ & H1 & H2 & _).
    unfold connListen. rewrite H1, H2, pongs_replicate.
    destruct (ponged_replay k (node w) nonce H0 Hn) as [-> ->]. done.
  - intros Hn Hr Hk w'. subst w'.
    destruct (connListenFrom_summary T
                (replicate k (ReadOk cnt (MsgPong 0) raw)) 0%nat w Hconn)
      as (_ & H1 & H2 & _).
    unfold connListen. rewrite H1, H2, pongs_replicate.
    destruct (ponged_zero k (node w) Hbits Hn Hr Hk) as [-> ->]. done.
Qed.

End DispatcherTheorems.

Section WorkerPipelines.
Import listner client.
Variable queueCap : nat.
Variable ConnectionsLimit : Z.
Variable path : string.

#[local] Abbreviation step := (step queueCap ConnectionsLimit path).
#[local] Abbreviation fire := (fire queueCap ConnectionsLimit path).
#[local] Abbreviation run := (run queueCap ConnectionsLimit path).

Lemma AddNodes_channels ips c :
  queueCh (AddNodes ips c) = queueCh c /\ nodeResCh (AddNodes ips c) = nodeResCh c.
Proof.
  destruct (added_foldl ips c) as [_ _ _ _ (Hq & Hr & _)].
  unfold AddNodes. done.
Qed.

Lemma listenerStep_channels ch c pc c' pc' :
  listenerStep ch c pc = Some (c', pc') ->
  queueCh c' = queueCh c /\ nodeResCh c' = nodeResCh c.
Proof.
  destruct pc, ch; simpl; intros H; repeat case_match; simplify_eq; try done.
  match goal with
  | |- context [AddNodes ?ips ?c0] =>
      destruct (AddNodes_channels ips c0) as (-> & ->)
  end.
  done.
Qed.

Lemma report_channels n r c :
  queueCh (report ConnectionsLimit path n r c) = queueCh c /\
  nodesNew (report ConnectionsLimit path n r c) = nodesNew c /\
  nodeResCh (report ConnectionsLimit path n r c) = nodeResCh c /\
  nodes (report ConnectionsLimit path n r c) = nodes c.
Proof.
  unfold report. simpl. destruct (nodesGood c) eqn:E; simpl; [done|]. by destruct r.
Qed.

Lemma updaterStep_channels ch r c pc c' pc' :
  updaterStep ConnectionsLimit path ch r c pc = Some (c', pc') ->
  queueCh c' = queueCh c /\ nodesNew c' = nodesNew c /\ nodeResCh c' = nodeResCh c.
Proof.
  destruct pc, ch; simpl; intros H; repeat case_match; simplify_eq; try done.
  all: match goal with
       | |- context [report _ _ ?n ?r0 ?c0] =>
           destruct (report_channels n r0 c0) as (-> & -> & -> & _)
       end; done.
Qed.

(** The feeder moves nodes along without losing, repeating or reordering
    them. *)
Lemma feederStep_pipeline c pc c' pc' :
  feederStep queueCap c pc = Some (c', pc') ->
  queueCh c' ++ held pc' ++ nodesNew c' = queueCh c ++ held pc ++ nodesNew c /\
  nodeResCh c' = nodeResCh c.
Proof.
  destruct pc; simpl; intros H; repeat case_match; simplify_eq; simpl; try done.
  - match goal with H : nodesNew _ = [] |- _ => by rewrite H end.
  - by rewrite <- app_assoc.
Qed.

(** X9.  A step of the feeder neither loses, repeats nor reorders nodes:
    the work queue, followed by the node in the feeder's hand, followed by
    the discovery list, is the same sequence before and after.  The feeder
    returns only from its [select], with the context cancelled and nothing
    in its hand, and it never fills the queue beyond its capacity. *)
Theorem feeder_conserves_nodes (c : Client) (pc : feederPC) (c' : Client)
    (pc' : feederPC)
    (Hstep : feederStep queueCap c pc = Some (c', pc')) :
  queueCh c' ++ held pc' ++ nodesNew c' = queueCh c ++ held pc ++ nodesNew c /\
  (pc' = FExited -> pc = FSelect /\ ctxDone c = true /\ held pc = []) /\
  ((length (queueCh c) <= queueCap)%nat -> (length (queueCh c') <= queueCap)%nat).
Proof.
  split; [by apply feederStep_pipeline|].
  destruct pc; simpl in Hstep; repeat case_match; simplify_eq; simpl;
    (split; [try done | try done]).
  intros _. rewrite length_app. simpl.
  match goal with H : (_ <? _)%nat = true |- _ => apply Nat.ltb_lt in H end. lia.
Qed.

(** X10.  The work queue, the feeder's hand and the discovery list form
    one first-in first-out pipeline: a step of any worker but the address
    listener either leaves that sequence as it is, or takes its first node,
    and then the step is a connector's, which was waiting at its [select]
    and now holds that node. *)
Theorem work_pipeline_is_fifo (s : System) (a : actor) (s' : System)
    (Hstep : step s a s')
    (Hactor : a <> Listener) :
  exists taken,
    queueCh (cl s) ++ held (feeder s) ++ nodesNew (cl s)
    = taken ++ queueCh (cl s') ++ held (feeder s') ++ nodesNew (cl s') /\
    (taken = [] \/
     exists i n, taken = [n] /\ a = Connector i /\
                 conns s !! i = Some CSelect /\ conns s' !! i = Some (CGot n)).
Proof.
  destruct Hstep as [s c' pc' Hf | s n i Hfe Hq Hi | s i ch o pc c' pc' Hi Hs
                    | s ch c' pc' Hh | s ch c' pc' Hli | s ch r c' pc' Hu
                    | s Hd | s batch | s d Hsend]; simpl.
  - exists []. apply feederStep_pipeline in Hf as [Hf _]. by split; [|left].
  - exists [n]. rewrite Hfe, Hq. simpl. split; [done|]. right.
    exists i, n. repeat split; [done|].
    apply list_lookup_insert_eq. by eapply lookup_lt_Some.
  - destruct pc; simpl in Hs; repeat case_match; simplify_eq; simpl;
      try (exists []; by split; [|left]).
    match goal with
    | |- context [CGot ?n0] => exists [n0]; split; [done|]; right; exists i, n0
    end.
    repeat split; [done|].
    apply list_lookup_insert_eq. by eapply lookup_lt_Some.
  - exists []. split; [|by left].
    destruct (handler s), ch; simpl in Hh; repeat case_match; simplify_eq; done.
  - done.
  - exists []. split; [|by left].
    apply updaterStep_channels in Hu as (-> & -> & _). done.
  - exists []. by split; [|left].
  - exists []. by split; [|left].
  - exists []. by split; [|left].
Qed.

(** One event, seen from the result channel. *)
Lemma fire_results e s s' :
  fire e s = Some s' ->
  exists taken,
    nodesGood (cl s') = nodesGood (cl s) ++ taken /\
    taken ++ nodeResCh (cl s') = nodeResCh (cl s) ++ reportOf e s.
Proof.
  destruct e as [|i|i ch o|ch|ch|ch r| |batch|]; simpl; intros H.
  - destruct (feederStep _ _ _) as [[c' pc']|] eqn:Hf; [|done]. simplify_eq. simpl.
    exists []. destruct (feederStep_frame _ _ _ _ _ Hf) as (-> & _).
    apply feederStep_pipeline in Hf as [_ ->]. by rewrite !app_nil_r.
  - repeat case_match; simplify_eq. simpl. exists []. by rewrite !app_nil_r.
  - destruct (conns s !! i) as [pc|] eqn:Hi; [|done].
    destruct (connStep _ _ _ _ _) as [[c' pc']|] eqn:Hs; [|done]. simplify_eq. simpl.
    rewrite (connStep_nodesGood _ _ _ _ _ _ _ Hs).
    destruct pc; simpl in Hs; repeat case_match; simplify_eq; simpl;
      exists []; by rewrite !app_nil_r.
  - destruct (handlerStep _ _ _) as [[c' pc']|] eqn:Hh; [|done]. simplify_eq. simpl.
    destruct (handler s), ch; simpl in Hh; repeat case_match; simplify_eq; simpl;
      try (exists []; by rewrite !app_nil_r).
    eexists. split; [reflexivity | by rewrite app_nil_r].
  - destruct (listenerStep _ _ _) as [[c' pc']|] eqn:Hli; [|done]. simplify_eq. simpl.
    exists []. destruct (listenerStep_frame _ _ _ _ _ Hli) as (-> & _).
    apply listenerStep_channels in Hli as (_ & ->). by rewrite !app_nil_r.
  - destruct (updaterStep _ _ _ _ _ _) as [[c' pc']|] eqn:Hu; [|done]. simplify_eq. simpl.
    exists []. destruct (updaterStep_frame _ _ _ _ _ _ _ _ Hu) as (-> & _).
    apply updaterStep_channels in Hu as (_ & _ & ->). by rewrite !app_nil_r.
  - case_match; simplify_eq. simpl. exists []. by rewrite !app_nil_r.
  - simplify_eq. simpl. exists []. by rewrite !app_nil_r.
  - case_match; simplify_eq. simpl. exists []. by rewrite !app_nil_r.
Qed.

(** X11.  Along any schedule of the workers, the good list only grows at
    its end, and what it has grown by, followed by what now waits in the
    result channel, is what waited in the channel at the start followed by
    what the [Connect] calls of the schedule have reported, each report once
    and in the order of the calls: results are recorded in the order they
    were reported, none lost, none twice and none out of turn. *)
Theorem results_reach_good_list_in_order (schedule : list event) (s s' : System)
    (Hrun : run schedule s = Some s') :
  exists more,
    nodesGood (cl s') = nodesGood (cl s) ++ more /\
    more ++ nodeResCh (cl s') =
    nodeResCh (cl s) ++ reportedBy queueCap ConnectionsLimit path schedule s.
Proof.
  revert s Hrun. induction schedule as [|e schedule IH]; intros s Hrun.
  - simpl in Hrun. simplify_eq. exists []. by rewrite !app_nil_r.
  - cbn [client.run client.reportedBy] in *.
    destruct (fire e s) as [s1|] eqn:Hfire; [|done].
    destruct (fire_results _ _ _ Hfire) as (taken & Hg1 & Hc1).
    destruct (IH s1 Hrun) as (more & Hg & Hc).
    exists (taken ++ more). split.
    + by rewrite Hg, Hg1, app_assoc.
    + rewrite <- app_assoc, Hc, !app_assoc. by rewrite Hc1.
Qed.

End WorkerPipelines.

Section WorkerRuns.
Import listner client.
Variable queueCap : nat.
Variable ConnectionsLimit : Z.
Variable path : string.

#[local] Abbreviation step := (step queueCap ConnectionsLimit path).
#[local] Abbreviation steps := (steps queueCap ConnectionsLimit path).

Lemma counted_reachable workers c s :
  Z.of_nat workers <= maxOf t_int32 -> activeConns c = 0 ->
  reachable queueCap ConnectionsLimit path workers c s -> counted workers s.
Proof.
  intros Hmax Hzero Hreach. unfold reachable in Hreach. revert s Hreach.
  apply rtc_ind_r.
  - split; simpl; [|by rewrite length_replicate].
    by rewrite Hzero, connectingCount_replicate.
  - intros s1 s2 _ Hst IH. destruct Hst as [a Hstep].
    by eapply counted_step.
Qed.

Lemma connectingCount_zero l :
  Forall (fun pc => connecting pc = false) l -> connectingCount l = 0%nat.
Proof.
  unfold connectingCount. induction 1 as [|pc l Hpc _ IH]; [done|].
  rewrite filter_cons_False by congruence. exact IH.
Qed.

(** X13.  With the counter starting at zero and a pool that fits the
    counter's [int32]: in every reachable state in which no connector is
    between its increment and its decrement (all are waiting, about to
    increment, or have returned) the active-connection counter is 0. *)
Theorem counter_is_zero_when_no_connector_is_handling (workers : nat) (c : Client)
    (s : System)
    (Hworkers : Z.of_nat workers <= maxOf t_int32)
    (Hzero : activeConns c = 0)
    (Hreach : reachable queueCap ConnectionsLimit path workers c s)
    (Hidle : Forall (fun pc => connecting pc = false) (conns s)) :
  activeConns (cl s) = 0.
Proof.
  destruct (counted_reachable workers c s Hworkers Hzero Hreach) as [Hc _].
  by rewrite Hc, connectingCount_zero.
Qed.

(** X12.  A connector that has received an endpoint always comes back to
    its [select], whether [Connect] fails or not, with the
    active-connection counter as it found it; the result channel holds in
    addition what [Connect] reported, the dead count is one more exactly
    when [Connect] returned an error, and the good list, the work queue and
    the discovery list are untouched. *)
Theorem connector_handles_one_endpoint (worker : nat) (o : ConnectOutcome) (n : Node)
    (c : Client)
    (Hrange : minOf t_int32 <= activeConns c < maxOf t_int32) :
  exists c',
    handleOne worker o n c = Some (c', CSelect) /\
    activeConns c' = activeConns c /\
    nodeResCh c' = nodeResCh c ++ reported o /\
    nodesDeadCnt c' = (if failed o then wrap t_int (nodesDeadCnt c + 1)
                       else nodesDeadCnt c) /\
    nodesGood c' = nodesGood c /\
    queueCh c' = queueCh c /\
    nodesNew c' = nodesNew c.
Proof.
  destruct int32_bounds as [Hmin Hmax].
  assert (H1 : wrap t_int32 (activeConns c + 1) = activeConns c + 1).
  { apply wrap_in_range; [done | unfold inRange; lia]. }
  assert (H2 : wrap t_int32 (activeConns c + 1 - 1) = activeConns c).
  { replace (activeConns c + 1 - 1) with (activeConns c) by lia.
    apply wrap_in_range; [done | unfold inRange; lia]. }
  unfold handleOne. cbn [connStep mbind option_bind].
  destruct (failed o) eqn:Hf; cbn [connStep mbind option_bind];
    eexists; (split; [reflexivity|]); cbn; rewrite ?H1, ?H2; done.
Qed.

(** X15.  The result handler records the nodes it receives until its
    [select] takes [ctx.Done()]; nothing that arrives after that is
    recorded. *)
Theorem handler_stops_at_cancellation (ns : list Node) (rest : list (option Node))
    (good : list Node) :
  handlerRun (map Some ns ++ None :: rest) good = good ++ ns.
Proof.
  revert good. induction ns as [|n ns IH]; intros good; simpl.
  - by rewrite app_nil_r.
  - by rewrite IH, <- app_assoc.
Qed.

Lemma report_snapshot n r c :
  snapshot (report ConnectionsLimit path n r c) = snapshot c.
Proof.
  unfold snapshot, ActiveConns.
  destruct (report_frame ConnectionsLimit path n r c) as (-> & -> & ->).
  by destruct (report_channels ConnectionsLimit path n r c) as (_ & -> & _ & ->).
Qed.

Lemma ticked_snapshot r c :
  snapshot (ticked ConnectionsLimit path r c) = snapshot c.
Proof. unfold ticked. by rewrite report_snapshot. Qed.

Lemma ticked_guiCh r c :
  guiCh (ticked ConnectionsLimit path r c) = guiCh c ++ [snapshot c].
Proof. unfold ticked. by rewrite report_guiCh. Qed.

(** What [k] ticks whose records the channel takes leave behind. *)
Lemma ticks_spec rs : forall c,
  let c' := foldl (fun c r => ticked ConnectionsLimit path r c) c rs in
  guiCh c' = guiCh c ++ replicate (length rs) (snapshot c) /\
  saved c' = saved c ++ (if decide (nodesGood c = []) then []
                         else replicate (length rs) (path, nodesGood c)) /\
  snapshot c' = snapshot c /\
  nodesGood c' = nodesGood c.
Proof.
  induction rs as [|r rs IH]; intros c; simpl.
  - rewrite !app_nil_r. by destruct (decide (nodesGood c = [])); rewrite ?app_nil_r.
  - destruct (IH (ticked ConnectionsLimit path r c)) as (Hg & Hs & Hsn & Hn).
    rewrite Hg, Hs, Hsn, Hn.
    rewrite ticked_guiCh, ticked_snapshot, ticked_nodesGood, ticked_saved.
    split; [by rewrite <- app_assoc|]. split; [|done].
    destruct (decide (nodesGood c = [])); [done | by rewrite <- app_assoc].
Qed.

Lemma updaterRun_ticks rs : forall c tail,
  updaterRun ConnectionsLimit path (map (TakeTick true) rs ++ tail) c =
  updaterRun ConnectionsLimit path tail
             (foldl (fun c r => ticked ConnectionsLimit path r c) c rs).
Proof. induction rs as [|r rs IH]; intros c tail; simpl; [done | apply IH]. Qed.

(** X16.  The publisher run on its own.  [k] ticks whose records the
    dashboard channel takes send [k] snapshots on it and, when the good list
    is not empty, make [k] calls of [storage.Save] with the path and the
    good list, whatever the calls return; these ticks change nothing a
    snapshot reads, so the [k] snapshots are equal.  If the [select] then
    takes [ctx.Done()], the publisher logs its exit and processes no further
    tick.  If instead it takes a tick whose record the channel does not
    take, the publisher stays in its send: nothing is added to the channel
    or to the calls of [storage.Save], and nothing that comes later, a
    cancellation included, is processed. *)
Theorem updater_ticks_then_stops (rs : list (option string))
    (rest : list updaterEvent) (r : option string) (c : Client) :
  exists after,
    updaterRun ConnectionsLimit path (map (TakeTick true) rs) c = (after, USelect) /\
    updaterRun ConnectionsLimit path (map (TakeTick true) rs ++ TakeDone :: rest) c =
      (logc LvDebug "[CLIENT]: STAT: worker exited" [] after, UExited) /\
    updaterRun ConnectionsLimit path
               (map (TakeTick true) rs ++ TakeTick false r :: rest) c =
      (after, USend (snapshot after)) /\
    guiCh after = guiCh c ++ replicate (length rs) (snapshot c) /\
    saved after = saved c ++ (if decide (nodesGood c = []) then []
                              else replicate (length rs) (path, nodesGood c)) /\
    snapshot after = snapshot c.
Proof.
  exists (foldl (fun c r => ticked ConnectionsLimit path r c) c rs).
  split.
  { rewrite <- (app_nil_r (map (TakeTick true) rs)). by rewrite updaterRun_ticks. }
  split; [by rewrite updaterRun_ticks|].
  split; [by rewrite updaterRun_ticks|].
  destruct (ticks_spec rs c) as (? & ? & ? & ?). done.
Qed.

(** X18.  Among the other workers, a pass of the publisher through the
    body of its tick case is three steps: the [select] takes the tick and
    the snapshot is built; the dashboard channel takes the record; the log
    lines are written and [storage.Save] is called if the good list is not
    empty.  With nothing in between, that leaves the client as [ticked]
    says and the publisher back at its [select].  Without the second step
    the publisher has no third one, also after a cancellation. *)
Theorem tick_takes_three_steps (r0 r : option string) (ch : choice) (s : System)
    (Hselect : updater s = USelect) :
  run queueCap ConnectionsLimit path
      [EUpdater ChooseOther r0; ETaken; EUpdater ch r] s
  = Some {| cl := ticked ConnectionsLimit path r (cl s); feeder := feeder s;
            conns := conns s; handler := handler s; listener := listener s;
            updater := USelect |} /\
  (forall ch' r',
      run queueCap ConnectionsLimit path
          [EUpdater ChooseOther r0; EUpdater ch' r'] s = None) /\
  (forall ch' r',
      run queueCap ConnectionsLimit path
          [EUpdater ChooseOther r0; ECancel; EUpdater ch' r'] s = None).
Proof.
  unfold run, fire. rewrite Hselect. cbn.
  split; [by destruct ch|]. split; [done|].
  intros ch' r'. by destruct (ctxDone (cl s)).
Qed.

(** X17.  The snapshots the publisher builds never carry message counts,
    so feeding any number of them to [Update] leaves the dashboard's "Msg
    in" and "Msg out" fields as they were. *)
Theorem snapshots_never_set_message_counters (cs : list Client) (g : gui.GUI) :
  let g' := foldl (fun g c => gui.Update (snapshot c) g) g cs in
  gui.infoMsgIn g' = gui.infoMsgIn g /\ gui.infoMsgOut g' = gui.infoMsgOut g.
Proof.
  revert g. induction cs as [|c cs IH]; intros g; simpl; [done|].
  destruct (IH (gui.Update (snapshot c) g)) as [-> ->].
  by destruct (stored_Update (snapshot c) g) as (_ & _ & _ & _ & _ & -> & ->).
Qed.

End WorkerRuns.

Section WorkQueue.
Import listner client.
Variable queueCap : nat.
Variable ConnectionsLimit : Z.
Variable path : string.

Lemma step_queue_length s a s' :
  step queueCap ConnectionsLimit path s a s' ->
  (length (queueCh (cl s)) <= queueCap)%nat ->
  (length (queueCh (cl s')) <= queueCap)%nat.
Proof.
  intros Hstep Hq.
  destruct Hstep as [s c' pc' Hf | s n i Hfe Hqe Hi | s i ch o pc c' pc' Hi Hs
                    | s ch c' pc' Hh | s ch c' pc' Hli | s ch r c' pc' Hu
                    | s Hd | s batch | s d Hsend]; simpl; try done.
  - destruct (feeder s); simpl in Hf; repeat case_match; simplify_eq; simpl; try done.
    rewrite length_app. simpl.
    match goal with H : (_ <? _)%nat = true |- _ => apply Nat.ltb_lt in H end. lia.
  - destruct pc; simpl in Hs; repeat case_match; simplify_eq; simpl; try done.
    simpl in Hq. lia.
  - destruct (handler s), ch; simpl in Hh; repeat case_match; simplify_eq; done.
  - apply listenerStep_channels in Hli as (-> & _). done.
  - apply (updaterStep_channels ConnectionsLimit path) in Hu as (-> & _). done.
Qed.

(** X14.  Started with a work queue within its capacity, the workers never
    hold more nodes in the work queue than its capacity. *)
Theorem work_queue_within_capacity (workers : nat) (c : Client) (s : System)
    (Hstart : (length (queueCh c) <= queueCap)%nat)
    (Hreach : reachable queueCap ConnectionsLimit path workers c s) :
  (length (queueCh (cl s)) <= queueCap)%nat.
Proof.
  unfold reachable in Hreach. revert s Hreach. apply rtc_ind_r; [done|].
  intros s1 s2 _ Hst IH. destruct Hst as [a Hstep].
  by eapply step_queue_length.
Qed.

End WorkQueue.

Section SliceEdges.
Import gui.

Lemma copyBack_short {T : Type} (back : list T) (mirror : list T) (limit : Z) :
  Z.of_nat (length mirror) < limit -> copyBack back 0 mirror limit = mirror.
Proof.
  intros H. destruct back as [|e back]; simpl; [done|].
  destruct (Z.leb_spec limit 0); [done|].
  by destruct (Z.leb_spec (Z.of_nat (length mirror)) (limit - 1 - 0)); [|lia].
Qed.

(** X5.  One call of [updateDataList] on a list of at most [n] values never
    changes the length of the slice; a skipped value (a zero float, an empty
    string) changes nothing; any other value leaves the newest [n] values in
    the list, and writes them at the right end of a slice of [n] slots,
    leaving the slots to their left as they were, while a slice shorter than
    [n] is not written at all. *)
Theorem updateDataList_writes_right_end {T : Type} `{Skipped T} (n : nat)
    (l : list T) (v : T) (m : list T)
    (Hlist : (length l <= n)%nat) :
  length (updateDataList l v m (Z.of_nat n)).2 = length m /\
  (skipped v = true -> updateDataList l v m (Z.of_nat n) = (l, m)) /\
  (skipped v = false -> (length m < n)%nat ->
     updateDataList l v m (Z.of_nat n) = (lastN n (l ++ [v]), m)) /\
  (skipped v = false -> length m = n ->
     updateDataList l v m (Z.of_nat n) =
     (lastN n (l ++ [v]),
      take (n - length (lastN n (l ++ [v]))) m ++ lastN n (l ++ [v]))).
Proof.
  split.
  { unfold updateDataList. destruct (skipped v); [done|]. simpl.
    apply copyBack_length. }
  split.
  { intros Hs. unfold updateDataList. by rewrite Hs. }
  split.
  - intros Hs Hm. unfold updateDataList. rewrite Hs, pushBounded_lastN by done.
    f_equal. apply copyBack_short. lia.
  - intros Hs Hm. by apply updateDataList_aligned.
Qed.

End SliceEdges.

Lemma total_number_lags_chart_witness :
  gui.GetLastNum (fun _ => 0)
    (gui.dataNodesTotal (foldl gui.perform (gui.New 8) [gui.CallUpdate busyData])) = 0 /\
  gui.GetLastNum (fun _ => 0)
    (gui.dataNodesTotal (foldl gui.perform (gui.New 8) busyCalls)) = 40.
Proof.
  destruct (total_number_lags_chart (fun _ => 0) 8 [gui.CallUpdate busyData])
    as (_ & Hfew & _).
  destruct (total_number_lags_chart (fun _ => 0) 8 busyCalls) as (_ & _ & Hfull).
  split.
  - apply Hfew. vm_compute. lia.
  - apply Hfull; [vm_compute; lia | reflexivity | reflexivity].
Defined.

Lemma updateDataList_writes_right_end_witness :
  @gui.updateDataList string gui.skipped_string ["a"; "b"; "c"] "d" ["a"; "b"; "c"] 3
  = (["b"; "c"; "d"], ["b"; "c"; "d"]) /\
  @gui.updateDataList string gui.skipped_string ["a"] "b" [""; "a"] 3
  = (["a"; "b"], [""; "a"]).
Proof.
  destruct (@updateDataList_writes_right_end string gui.skipped_string 3
              ["a"; "b"; "c"] "d" ["a"; "b"; "c"])
    as (_ & _ & _ & Hfull); [simpl; lia|].
  destruct (@updateDataList_writes_right_end string gui.skipped_string 3
              ["a"] "b" [""; "a"])
    as (_ & _ & Hshort & _); [simpl; lia|].
  split.
  - exact (Hfull eq_refl eq_refl).
  - apply Hshort; [reflexivity | simpl; lia].
Defined.

Lemma dispatcher_run_summary_witness :
  listner.newNodesCh (listner.worldOf (listner.connListen t_int sampleScript sampleWorld))
  = [["[198.51.100.4]:8333"; "[2001:db8::1]:18333"]] /\
  listner.PingCount
    (listner.node (listner.worldOf (listner.connListen t_int sampleScript sampleWorld)))
  = 3.
Proof.
  assert (Hc : listner.Conn (listner.node sampleWorld) <> None) by (vm_compute; discriminate).
  destruct (dispatcher_run_summary t_int sampleScript sampleWorld Hc)
    as (Hch & _ & Hcount & _).
  split.
  - etrans; [exact Hch | vm_compute; reflexivity].
  - etrans; [exact Hcount | vm_compute; reflexivity].
Defined.

Lemma dispatcher_returns_on_eof_or_no_conn_witness :
  listner.Conn
    (listner.node (listner.worldOf (listner.connListen t_int sampleScript sampleWorld)))
  = None /\
  exists cnt, sampleScript !! 3%nat = Some (wire.ReadErr cnt wire.EOF).
Proof.
  assert (Hret : listner.connListen t_int sampleScript sampleWorld
                 = listner.Returned 4
                     (listner.worldOf (listner.connListen t_int sampleScript sampleWorld)))
    by (vm_compute; reflexivity).
  destruct (dispatcher_returns_on_eof_or_no_conn t_int sampleScript sampleWorld 4 _ Hret)
    as (Hconn & _ & [(Hnone & _) | (_ & _ & Heof & _)]).
  - exfalso. vm_compute in Hnone. discriminate.
  - split; [exact Hconn | exact Heof].
Defined.

Lemma pong_counted_once_unless_zero_witness :
  listner.PingCount
    (listner.node (listner.worldOf
       (listner.connListen t_int (replicate 3 (wire.ReadOk 32 (wire.MsgPong 7) []))
                           sampleWorld))) = 3 /\
  listner.PingCount
    (listner.node (listner.worldOf
       (listner.connListen t_int (replicate 3 (wire.ReadOk 32 (wire.MsgPong 0) []))
                           restingWorld))) = 5.
Proof.
  assert (Hb : 0 < it_bits t_int) by reflexivity.
  assert (Hc : listner.Conn (listner.node sampleWorld) <> None) by (vm_compute; discriminate).
  assert (Hc' : listner.Conn (listner.node restingWorld) <> None)
    by (vm_compute; discriminate).
  destruct (pong_counted_once_unless_zero t_int 2 32 7 [] sampleWorld Hb Hc)
    as (Hreplay & _).
  destruct (pong_counted_once_unless_zero t_int 3 32 0 [] restingWorld Hb Hc')
    as (_ & Hzero).
  split.
  - destruct Hreplay as [Hcount _]; [lia | reflexivity |].
    etrans; [exact Hcount | vm_compute; reflexivity].
  - destruct Hzero as [Hcount _];
      [reflexivity | vm_compute; split; discriminate | vm_compute; discriminate |].
    exact Hcount.
Defined.

Lemma feeder_conserves_nodes_witness :
  client.feederStep 1 twoDiscovered client.FSelect
  = Some (client.set_nodesNew [client.newNode "b"] twoDiscovered,
          client.FSend (client.newNode "a")) /\
  client.queueCh (client.set_nodesNew [client.newNode "b"] twoDiscovered)
    ++ client.held (client.FSend (client.newNode "a"))
    ++ client.nodesNew (client.set_nodesNew [client.newNode "b"] twoDiscovered)
  = client.queueCh twoDiscovered ++ client.held client.FSelect
    ++ client.nodesNew twoDiscovered.
Proof.
  assert (Hstep : client.feederStep 1 twoDiscovered client.FSelect
                  = Some (client.set_nodesNew [client.newNode "b"] twoDiscovered,
                          client.FSend (client.newNode "a"))) by reflexivity.
  split; [exact Hstep|].
  exact (proj1 (feeder_conserves_nodes 1 _ _ _ _ Hstep)).
Defined.

Lemma work_pipeline_is_fifo_witness :
  exists s' taken,
    client.step 1 1 "nodes.json" queuedOne (client.Connector 0) s' /\
    client.queueCh (client.cl queuedOne) ++ client.held (client.feeder queuedOne)
      ++ client.nodesNew (client.cl queuedOne)
    = taken ++ client.queueCh (client.cl s') ++ client.held (client.feeder s')
      ++ client.nodesNew (client.cl s').
Proof.
  assert (Hfire : exists s', client.fire 1 1 "nodes.json"
                               (client.EConn 0 client.ChooseOther refused) queuedOne
                             = Some s') by (eexists; reflexivity).
  destruct Hfire as [s' Hfire].
  pose proof (fire_step 1 1 "nodes.json" _ _ _ Hfire) as Hstep. simpl in Hstep.
  assert (Ha : client.Connector 0 <> client.Listener) by discriminate.
  destruct (work_pipeline_is_fifo 1 1 "nodes.json" _ _ _ Hstep Ha) as (taken & Heq & _).
  exists s', taken. split; [exact Hstep | exact Heq].
Defined.

Lemma results_reach_good_list_in_order_witness :
  exists s' more,
    client.run 1 1 "nodes.json" recordSchedule (client.started 1 client.emptyClient)
      = Some s' /\
    client.nodesGood (client.cl s') = more /\
    more ++ client.nodeResCh (client.cl s') = [client.newNode "a"].
Proof.
  assert (Hrun : exists s', client.run 1 1 "nodes.json" recordSchedule
                              (client.started 1 client.emptyClient) = Some s')
    by (eexists; vm_compute; reflexivity).
  destruct Hrun as [s' Hrun].
  assert (Hrep : client.reportedBy 1 1 "nodes.json" recordSchedule
                   (client.started 1 client.emptyClient) = [client.newNode "a"])
    by (vm_compute; reflexivity).
  destruct (results_reach_good_list_in_order 1 1 "nodes.json" _ _ _ Hrun)
    as (more & Hg & Hc).
  rewrite Hrep in Hc.
  exists s', more. split; [exact Hrun|]. split; [exact Hg | exact Hc].
Defined.

Lemma tick_takes_three_steps_witness :
  exists s',
    client.run 1 8 "data/nodes.json"
               [client.EUpdater client.ChooseOther None; client.ETaken;
                client.EUpdater client.ChooseOther (Some "disk full")]
               (client.started 1 oneGood) = Some s' /\
    client.saved (client.cl s') = [("data/nodes.json", [sampleNode])] /\
    client.guiCh (client.cl s') = [client.snapshot oneGood] /\
    client.updater s' = client.USelect.
Proof.
  destruct (tick_takes_three_steps 1 8 "data/nodes.json" None (Some "disk full")
              client.ChooseOther (client.started 1 oneGood) eq_refl) as [Hrun _].
  eexists. split; [exact Hrun|]. split; [reflexivity|]. split; reflexivity.
Defined.

Lemma connector_handles_one_endpoint_witness :
  exists c',
    client.handleOne 0 refused sampleNode client.emptyClient = Some (c', client.CSelect) /\
    client.activeConns c' = 0 /\ client.nodesDeadCnt c' = 1.
Proof.
  destruct (connector_handles_one_endpoint 0 refused sampleNode client.emptyClient)
    as (c' & Hrun & Hactive & _ & Hdead & _);
    [vm_compute; split; [discriminate | reflexivity]|].
  exists c'. split; [exact Hrun|]. split; [exact Hactive|].
  etrans; [exact Hdead | reflexivity].
Defined.

Lemma counter_is_zero_when_no_connector_is_handling_witness :
  client.activeConns (client.cl blockedFeeder) = 0.
Proof.
  apply (counter_is_zero_when_no_connector_is_handling 1 1 "nodes.json" 1
           client.emptyClient blockedFeeder).
  - vm_compute. discriminate.
  - reflexivity.
  - apply (run_steps 1 1 "nodes.json" shutdownSchedule). vm_compute. reflexivity.
  - repeat constructor.
Defined.

Lemma work_queue_within_capacity_witness :
  (length (client.queueCh (client.cl blockedFeeder)) <= 1)%nat.
Proof.
  apply (work_queue_within_capacity 1 1 "nodes.json" 1 client.emptyClient blockedFeeder).
  - simpl. lia.
  - apply (run_steps 1 1 "nodes.json" shutdownSchedule). vm_compute. reflexivity.
Defined.
